(** * Lobby orchestration of OpenFrontIO: master coordinator, worker lobby
    owner and process supervisor.

    Shallow embedding of
      - src/server/MasterLobbyService.ts   (class MasterLobbyService)
      - src/server/WorkerLobbyService.ts   (class WorkerLobbyService)
      - src/server/IPCBridgeSchema.ts      (the zod message schemas)
      - src/server/Master.ts               (startMaster, the cluster exit handler)

    Conventions.
      - A JavaScript [number] that holds a worker index, a client count or a
        millisecond timestamp is a [Z]. The source computes with doubles;
        sums and differences of integers are those of [Z] as long as the
        operands and the result are safe integers
        ([Number_isSafeInteger]).
      - A JavaScript [Map] is an association list in insertion order
        (module [JSMap]); a [Set<number>] of which only [add], [delete] and
        [size] are used is a [gset Z].
      - An event handler is a function from the state before to the state
        after and the list of effects it performed, in program order.
      - A history of events is a list with the LATEST event first, so that
        [run (e :: h)] is one more step after [run h]. *)

From stdpp Require Import gmap strings list sorting.
From Stdlib Require Import ZArith Lia.

Local Open Scope Z_scope.
Local Set Warnings "-register-all,-clear-no-such-hyp".

(** ** JavaScript values that cross the IPC channel *)

Inductive JSON :=
| JNull
| JBool (b : bool)
| JNum (n : Z)
| JStr (s : string)
| JArr (items : list JSON)
| JObj (fields : list (string * JSON)).

(** Property read [v.k]; [None] is [undefined]. *)
Fixpoint obj_get (k : string) (fields : list (string * JSON)) : option JSON :=
  match fields with
  | [] => None
  | (k', v) :: rest => if decide (k' = k) then Some v else obj_get k rest
  end.

(** ** Insertion-ordered maps (ECMAScript [Map]) *)

Module JSMap.
Section ops.
Context {K : Type} `{EqDecision K} {V : Type}.

Fixpoint get (k : K) (m : list (K * V)) : option V :=
  match m with
  | [] => None
  | (k', v) :: m' => if decide (k' = k) then Some v else get k m'
  end.

(** [set] on a present key replaces the value in place, on an absent key
    appends the entry at the end. *)
Fixpoint set (k : K) (v : V) (m : list (K * V)) : list (K * V) :=
  match m with
  | [] => [(k, v)]
  | (k', v') :: m' =>
      if decide (k' = k) then (k, v) :: m' else (k', v') :: set k v m'
  end.

Fixpoint delete (k : K) (m : list (K * V)) : list (K * V) :=
  match m with
  | [] => []
  | (k', v') :: m' =>
      if decide (k' = k) then delete k m' else (k', v') :: delete k m'
  end.

Definition keys (m : list (K * V)) : list K := m.*1.
Definition values (m : list (K * V)) : list V := m.*2.
End ops.
End JSMap.

(** ** Data model (core/Schemas.ts as used by the server files) *)

Definition GameID := string.

(** The game configuration is opaque to the orchestration layer. *)
Definition GameConfig := JSON.

Record PublicGameInfo := {
  gameID : GameID;
  numClients : Z;
  startsAt : Z;
  gameConfig : GameConfig;
}.

Record PublicGames := {
  serverTime : Z;
  games : list PublicGameInfo;
}.

(** Schemas imported from core/Schemas.ts, which is not part of the sources
    at hand: they are parameters of the development. *)
Class CoreSchemas := {
  PublicGameInfoSchema : JSON → option PublicGameInfo;
  PublicGamesSchema : JSON → option PublicGames;
  GameConfigSchema : JSON → option GameConfig;
}.

(** ** IPCBridgeSchema.ts *)

Inductive WorkerMessage :=
| WorkerLobbyList (lobbies : list PublicGameInfo)
| WorkerReady (workerId : Z).

Inductive MasterMessage :=
| MasterLobbiesBroadcast (publicGames : PublicGames)
| MasterCreateGame (gameID : GameID) (gameConfig : GameConfig) (startsAt : Z).

Section schemas.
Context `{CoreSchemas}.

Definition WorkerLobbyListSchema (fields : list (string * JSON))
  : option WorkerMessage :=
  match obj_get "lobbies" fields with
  | Some (JArr items) => WorkerLobbyList <$> mapM PublicGameInfoSchema items
  | _ => None
  end.

Definition WorkerReadySchema (fields : list (string * JSON))
  : option WorkerMessage :=
  match obj_get "workerId" fields with
  | Some (JNum n) => Some (WorkerReady n)
  | _ => None
  end.

(** [z.discriminatedUnion("type", [...]).safeParse(raw)]; [None] is
    [{ success: false }]. *)
Definition WorkerMessageSchema_safeParse (raw : JSON) : option WorkerMessage :=
  match raw with
  | JObj fields =>
      match obj_get "type" fields with
      | Some (JStr t) =>
          if decide (t = "lobbyList") then WorkerLobbyListSchema fields
          else if decide (t = "workerReady") then WorkerReadySchema fields
          else None
      | _ => None
      end
  | _ => None
  end.

Definition MasterLobbiesBroadcastSchema (fields : list (string * JSON))
  : option MasterMessage :=
  match obj_get "publicGames" fields with
  | Some v => MasterLobbiesBroadcast <$> PublicGamesSchema v
  | None => None
  end.

Definition MasterCreateGameSchema (fields : list (string * JSON))
  : option MasterMessage :=
  match obj_get "gameID" fields, obj_get "gameConfig" fields,
        obj_get "startsAt" fields with
  | Some (JStr id), Some cfg, Some (JNum t) =>
      (λ c, MasterCreateGame id c t) <$> GameConfigSchema cfg
  | _, _, _ => None
  end.

Definition MasterMessageSchema_safeParse (raw : JSON) : option MasterMessage :=
  match raw with
  | JObj fields =>
      match obj_get "type" fields with
      | Some (JStr t) =>
          if decide (t = "lobbiesBroadcast")
          then MasterLobbiesBroadcastSchema fields
          else if decide (t = "createGame") then MasterCreateGameSchema fields
          else None
      | _ => None
      end
  | _ => None
  end.
End schemas.

(** ** [Array.prototype.sort] with a comparator

    ECMAScript requires the sort to be stable; for a consistent comparator
    the result is the stable sorted permutation, which is what the insertion
    sort below computes: an element is placed in front of the first element
    it does not compare greater than. *)

Section array_sort.
Context {A : Type} (compareFn : A → A → Z).

Fixpoint sort_insert (x : A) (l : list A) : list A :=
  match l with
  | [] => [x]
  | y :: l' =>
      if decide (compareFn x y ≤ 0) then x :: y :: l'
      else y :: sort_insert x l'
  end.

Definition Array_sort (l : list A) : list A := foldr sort_insert [] l.
End array_sort.

(** ** Collaborators of the coordinator *)

(** [ServerConfig] (core/configuration/Config.ts, not among the sources). *)
Class ServerConfig := {
  numWorkers : Z;
  gameCreationRate : Z;
  (** the string hash behind [workerIndex] *)
  simpleHash : GameID → Z;
}.

(** Modelled from the spec: [ServerConfig.workerIndex] is missing from the
    sources; the specification gives it as the deterministic
    [hash(gameID) mod numWorkers]. *)
Definition workerIndex `{ServerConfig} (gameID : GameID) : Z :=
  simpleHash gameID `mod` numWorkers.

(** A value stored in a forked process' environment. *)
Inductive EnvValue :=
| EnvNum (n : Z)
| EnvStr (s : string).

#[global] Instance EnvValue_eq_dec : EqDecision EnvValue.
Proof. solve_decision. Defined.

(** A [cluster.Worker] object: its identity as an object, and what
    [(worker as any).process?.env?.WORKER_ID] reads from it ([None] is
    [undefined]). *)
Record Worker := {
  handle : nat;
  process_env_WORKER_ID : option EnvValue;
}.

#[global] Instance Worker_eq_dec : EqDecision Worker.
Proof. solve_decision. Defined.

(** ** MasterLobbyService.ts *)

Inductive PollTask := BroadcastLobbies | MaybeScheduleLobby.

#[global] Instance PollTask_eq_dec : EqDecision PollTask.
Proof. solve_decision. Defined.

Inductive MasterLog :=
| Error_InvalidIPCFromWorker (raw : JSON)
| Info_WorkerIsReady (workerId : Z) (ready : nat) (total : Z)
| Info_AllWorkersReady
| Error_WorkerNotFound (workerId : Z)
| Info_ScheduledPublicGame (gameID : GameID) (workerId : Z).

Inductive MasterEffect :=
| Log (entry : MasterLog)
| WorkerSend (worker : Worker) (msg : MasterMessage)
| StartPolling (task : PollTask) (intervalMs : Z).

(** The three maps and the flag of the class, and the ["message"] listeners
    that [registerWorker] has attached to worker objects: a pair
    [(worker, workerId)] is the closure attached to [worker] that captured
    [workerId]. Nothing in the class ever detaches a listener. *)
Record MasterLobbyService := {
  workers : list (Z * Worker);
  workerLobbies : list (Z * list PublicGameInfo);
  readyWorkers : gset Z;
  started : bool;
  listeners : list (Worker * Z);
}.

Definition new_MasterLobbyService : MasterLobbyService :=
  {| workers := []; workerLobbies := []; readyWorkers := ∅;
     started := false; listeners := [] |}.

Section master.
Context `{CoreSchemas} `{ServerConfig}.

Definition registerWorker (workerId : Z) (worker : Worker)
    (s : MasterLobbyService) : MasterLobbyService :=
  {| workers := JSMap.set workerId worker (workers s);
     workerLobbies := workerLobbies s;
     readyWorkers := readyWorkers s;
     started := started s;
     listeners := listeners s ++ [(worker, workerId)] |}.

Definition removeWorker (workerId : Z) (s : MasterLobbyService)
    : MasterLobbyService :=
  {| workers := JSMap.delete workerId (workers s);
     workerLobbies := JSMap.delete workerId (workerLobbies s);
     readyWorkers := readyWorkers s ∖ {[workerId]};
     started := started s;
     listeners := listeners s |}.

Definition handleWorkerReady (workerId : Z) (s : MasterLobbyService)
    : MasterLobbyService * list MasterEffect :=
  let ready := {[workerId]} ∪ readyWorkers s in
  let line := Log (Info_WorkerIsReady workerId (size ready) numWorkers) in
  if bool_decide (Z.of_nat (size ready) = numWorkers) && negb (started s) then
    ({| workers := workers s; workerLobbies := workerLobbies s;
        readyWorkers := ready; started := true;
        listeners := listeners s |},
     [line; Log Info_AllWorkersReady;
      StartPolling BroadcastLobbies 250;
      StartPolling MaybeScheduleLobby 1000])
  else
    ({| workers := workers s; workerLobbies := workerLobbies s;
        readyWorkers := ready; started := started s;
        listeners := listeners s |},
     [line]).

(** The listener that [registerWorker workerId _] attaches. *)
Definition onMessage (workerId : Z) (raw : JSON) (s : MasterLobbyService)
    : MasterLobbyService * list MasterEffect :=
  match WorkerMessageSchema_safeParse raw with
  | None => (s, [Log (Error_InvalidIPCFromWorker raw)])
  | Some (WorkerReady id) => handleWorkerReady id s
  | Some (WorkerLobbyList lobbies) =>
      ({| workers := workers s;
          workerLobbies := JSMap.set workerId lobbies (workerLobbies s);
          readyWorkers := readyWorkers s; started := started s;
          listeners := listeners s |}, [])
  end.

Definition getAllLobbies (s : MasterLobbyService) : list PublicGameInfo :=
  Array_sort (λ a b, startsAt a - startsAt b)
             (concat (JSMap.values (workerLobbies s))).

(** [now] is the value of [Date.now()]. *)
Definition broadcastLobbies (now : Z) (s : MasterLobbyService)
    : list MasterEffect :=
  let msg := MasterLobbiesBroadcast
               {| serverTime := now; games := getAllLobbies s |} in
  (λ worker, WorkerSend worker msg) <$> JSMap.values (workers s).

(** [maybeScheduleLobby] suspends once, at [await playlist.gameConfig()].
    What it has computed by then: *)
Record PendingLobby := {
  pending_gameID : GameID;
  pending_workerId : Z;
  pending_lastStart : Z;
}.

(** Up to the [await]: [None] is the early [return]. [now] is [Date.now()],
    [generated] the result of [generateID()]. *)
Definition maybeScheduleLobby_begin (now : Z) (generated : GameID)
    (s : MasterLobbyService) : option PendingLobby :=
  let lobbies := getAllLobbies s in
  if decide (2 ≤ Z.of_nat (length lobbies)) then None
  else
    let lastStart := foldl (λ max pb, Z.max max (startsAt pb)) now lobbies in
    Some {| pending_gameID := generated;
            pending_workerId := workerIndex generated;
            pending_lastStart := lastStart |}.

(** After the [await] has delivered [gameConfig], in the state the service
    is in by then. The start time is the sum of the integers, which is the
    sum the source computes when [lastStart], [gameCreationRate] and the
    sum are safe integers. *)
Definition maybeScheduleLobby_resume (p : PendingLobby)
    (gameConfig : GameConfig) (s : MasterLobbyService) : list MasterEffect :=
  match JSMap.get (pending_workerId p) (workers s) with
  | None => [Log (Error_WorkerNotFound (pending_workerId p))]
  | Some worker =>
      [WorkerSend worker
         (MasterCreateGame (pending_gameID p) gameConfig
            (pending_lastStart p + gameCreationRate));
       Log (Info_ScheduledPublicGame (pending_gameID p) (pending_workerId p))]
  end.

(** How one call of [maybeScheduleLobby] ends. *)
Inductive TickResult :=
| Returned (effects : list MasterEffect)
| Rejected.

(** One scheduling tick. [playlist] is the outcome of
    [playlist.gameConfig()] ([None]: the promise is rejected, and so is the
    tick's); [s] is the state when the tick begins, [s'] the state when it
    resumes. *)
Definition maybeScheduleLobby (now : Z) (generated : GameID)
    (playlist : option GameConfig) (s s' : MasterLobbyService) : TickResult :=
  match maybeScheduleLobby_begin now generated s with
  | None => Returned []
  | Some p =>
      match playlist with
      | None => Rejected
      | Some gameConfig => Returned (maybeScheduleLobby_resume p gameConfig s')
      end
  end.

(** What happens to the coordinator between ticks. *)
Inductive Event :=
| RegisterWorker (workerId : Z) (worker : Worker)
| RemoveWorker (workerId : Z)
| Message (worker : Worker) (raw : JSON).

(** The worker ids captured by the listeners attached to [worker], in the
    order they were attached. *)
Definition listeners_of (worker : Worker) (s : MasterLobbyService) : list Z :=
  (filter (λ l, l.1 = worker) (listeners s)).*2.

Fixpoint emit (ids : list Z) (raw : JSON) (s : MasterLobbyService)
    : MasterLobbyService * list MasterEffect :=
  match ids with
  | [] => (s, [])
  | workerId :: ids' =>
      let '(s1, e1) := onMessage workerId raw s in
      let '(s2, e2) := emit ids' raw s1 in
      (s2, e1 ++ e2)
  end.

Definition step (e : Event) (s : MasterLobbyService)
    : MasterLobbyService * list MasterEffect :=
  match e with
  | RegisterWorker workerId worker => (registerWorker workerId worker s, [])
  | RemoveWorker workerId => (removeWorker workerId s, [])
  | Message worker raw => emit (listeners_of worker s) raw s
  end.

(** State and effects after a history (latest event first). *)
Fixpoint run (h : list Event) : MasterLobbyService * list MasterEffect :=
  match h with
  | [] => (new_MasterLobbyService, [])
  | e :: h' =>
      let '(s, done) := run h' in
      let '(s', more) := step e s in
      (s', done ++ more)
  end.

Definition state_after (h : list Event) : MasterLobbyService := (run h).1.
Definition effects_of (h : list Event) : list MasterEffect := (run h).2.
End master.

(** ** WorkerLobbyService.ts *)

Inductive ReadyState := CONNECTING | OPEN | CLOSING | CLOSED.

#[global] Instance ReadyState_eq_dec : EqDecision ReadyState.
Proof. solve_decision. Defined.

(** A viewer connection: the identity of the [WebSocket] object and its
    current [readyState]. *)
Record WebSocket := {
  socket : nat;
  readyState : ReadyState;
}.

(** What [GameServer.gameInfo()] returns, as far as the service reads it. *)
Record GameInfo := {
  gi_gameID : GameID;
  gi_clients : option (list string);
  gi_startsAt : option Z;
  gi_gameConfig : GameConfig;
}.

(** Modelled from the spec: the lobby manager ([GameManager], missing from
    the sources) offers [game(id) -> Lobby|null],
    [createGame(id, config, startsAt?)] and [listPublicLobbies()]. It is a
    map from game id to game; a game carries what [gameInfo()] reports and
    whether it is listed as a public lobby. *)
Record GameServer := {
  info : GameInfo;
  listed : bool;
}.

Abbreviation GameManager := (list (GameID * GameServer)).

(** Modelled from the spec: [GameManager.game(id) -> Lobby|null]. *)
Definition gm_game (id : GameID) (gm : GameManager) : option GameServer :=
  JSMap.get id gm.

(** Modelled from the spec: [GameManager.createGame(id, config, startsAt?)]
    stores a new game under [id]; a game created this way is a public
    lobby. *)
Definition gm_createGame (id : GameID) (gameConfig : GameConfig)
    (creatorClientID : option string) (startsAt : option Z)
    (gm : GameManager) : GameManager :=
  JSMap.set id
    {| info := {| gi_gameID := id; gi_clients := Some [];
                  gi_startsAt := startsAt; gi_gameConfig := gameConfig |};
       listed := true |} gm.

(** Modelled from the spec: [GameManager.publicLobbies()], the
    [listPublicLobbies()] of the specification. *)
Definition gm_publicLobbies (gm : GameManager) : list GameServer :=
  filter (λ g, listed g = true) (JSMap.values gm).

Inductive WorkerLog :=
| Error_InvalidIPCFromMaster (raw : JSON)
| Warn_GameAlreadyExists (gameID : GameID)
| Info_CreatingPublicGame (gameID : GameID).

(** [ClientSend c pg] is [c.send(JSON.stringify(pg))]; [ProcessSend v] is
    [process.send(v)], with [v] the object as it goes over the channel. *)
Inductive WorkerEffect :=
| WLog (entry : WorkerLog)
| ClientSend (client : WebSocket) (stringified : PublicGames)
| ProcessSend (msg : JSON).

Record WorkerLobbyService := {
  lobbyClients : list WebSocket;
  gm : GameManager;
  (** whether [process.send] is defined (the process has an IPC channel) *)
  process_send : bool;
}.

Section worker.
Context `{CoreSchemas}.

(** [sendReady]. *)
Definition readyMessage (workerId : Z) : JSON :=
  JObj [("type", JStr "workerReady"); ("workerId", JNum workerId)].

Definition sendReady (workerId : Z) (s : WorkerLobbyService)
    : list WorkerEffect :=
  if process_send s then [ProcessSend (readyMessage workerId)] else [].

(** The object literal built for each lobby in [sendMyLobbiesToMaster];
    a property whose value is [undefined] does not go over the channel. *)
Definition lobbySummary (gi : GameInfo) : JSON :=
  JObj ([("gameID", JStr (gi_gameID gi));
         ("numClients",
          JNum (from_option (λ cs, Z.of_nat (length cs)) 0 (gi_clients gi)))]
        ++ from_option (λ t, [("startsAt", JNum t)]) [] (gi_startsAt gi)
        ++ [("gameConfig", gi_gameConfig gi)]).

Definition lobbyListMessage (gm : GameManager) : JSON :=
  JObj [("type", JStr "lobbyList");
        ("lobbies", JArr ((lobbySummary ∘ info) <$> gm_publicLobbies gm))].

Definition sendMyLobbiesToMaster (s : WorkerLobbyService)
    : list WorkerEffect :=
  if process_send s then [ProcessSend (lobbyListMessage (gm s))] else [].

(** [Set.delete] on the viewer set. *)
Definition delete_client (c : WebSocket) (clients : list WebSocket)
    : list WebSocket :=
  filter (λ c', socket c' ≠ socket c) clients.

Definition broadcastLobbiesToClients (publicGames : PublicGames)
    (s : WorkerLobbyService) : WorkerLobbyService * list WorkerEffect :=
  let sends :=
    (λ c, ClientSend c publicGames)
      <$> filter (λ c, readyState c = OPEN) (lobbyClients s) in
  let clientsToRemove :=
    filter (λ c, readyState c ≠ OPEN) (lobbyClients s) in
  ({| lobbyClients := foldl (λ cs c, delete_client c cs)
                            (lobbyClients s) clientsToRemove;
      gm := gm s; process_send := process_send s |}, sends).

(** The listener installed by [setupIPCListener]. *)
Definition onMasterMessage (raw : JSON) (s : WorkerLobbyService)
    : WorkerLobbyService * list WorkerEffect :=
  match MasterMessageSchema_safeParse raw with
  | None => (s, [WLog (Error_InvalidIPCFromMaster raw)])
  | Some (MasterLobbiesBroadcast publicGames) =>
      let '(s1, sends) := broadcastLobbiesToClients publicGames s in
      (s1, sends ++ sendMyLobbiesToMaster s1)
  | Some (MasterCreateGame gameID gameConfig startsAt) =>
      match gm_game gameID (gm s) with
      | Some _ => (s, [WLog (Warn_GameAlreadyExists gameID)])
      | None =>
          ({| lobbyClients := lobbyClients s;
              gm := gm_createGame gameID gameConfig None (Some startsAt)
                      (gm s);
              process_send := process_send s |},
           [WLog (Info_CreatingPublicGame gameID)])
      end
  end.

(** The object the master sends for a [MasterCreateGame]. *)
Definition createGameMessage (gameID : GameID) (gameConfig : GameConfig)
    (startsAt : Z) : JSON :=
  JObj [("type", JStr "createGame"); ("gameID", JStr gameID);
        ("gameConfig", gameConfig); ("startsAt", JNum startsAt)].
End worker.

(** ** Master.ts: the process supervisor *)

Record ForkEnv := {
  WORKER_ID : EnvValue;
  ADMIN_TOKEN : string;
  INSTANCE_ID : string;
}.

Inductive SupervisorLog :=
| Info_StartedWorker (i : Z) (pid : nat)
| Error_CouldNotFindId
| Warn_WorkerDied (workerId : EnvValue) (pid : nat)
                  (code : option Z) (signal : option string)
| Info_RestartingWorker (workerId : EnvValue)
| Info_RestartedWorker (workerId : EnvValue) (pid : nat).

Inductive SupervisorEffect :=
| SLog (entry : SupervisorLog)
| Fork (env : ForkEnv) (worker : Worker).

(** The variables of [startMaster] that its exit handler closes over, and
    the number of processes forked so far (the next object identity). *)
Record MasterProcess := {
  lobbyService : MasterLobbyService;
  admin_token : string;
  instance_id : string;
  forked : nat;
}.

Section supervisor.
Context `{CoreSchemas} `{ServerConfig}.

(** [cluster.fork(env)] returns a new [cluster.Worker]. Its [process] is a
    Node [ChildProcess]: the environment is handed to the child process and
    is not a property of that object, so
    [(worker as any).process?.env?.WORKER_ID] reads [undefined] from every
    object that [cluster.fork] returns. *)
Definition cluster_fork (env : ForkEnv) (m : MasterProcess) : Worker :=
  {| handle := forked m; process_env_WORKER_ID := None |}.

(** One iteration of the [for] loop of [startMaster]. *)
Definition fork_worker (i : Z) (m : MasterProcess)
    : MasterProcess * list SupervisorEffect :=
  let env := {| WORKER_ID := EnvNum i; ADMIN_TOKEN := admin_token m;
                INSTANCE_ID := instance_id m |} in
  let worker := cluster_fork env m in
  ({| lobbyService := registerWorker i worker (lobbyService m);
      admin_token := admin_token m; instance_id := instance_id m;
      forked := S (forked m) |},
   [Fork env worker; SLog (Info_StartedWorker i (handle worker))]).

Fixpoint fork_workers (ids : list Z) (m : MasterProcess)
    : MasterProcess * list SupervisorEffect :=
  match ids with
  | [] => (m, [])
  | i :: ids' =>
      let '(m1, e1) := fork_worker i m in
      let '(m2, e2) := fork_workers ids' m1 in
      (m2, e1 ++ e2)
  end.

(** [startMaster] from the creation of the lobby service to the end of
    the fork loop; the two tokens are the random values it draws. *)
Definition startMaster (adminToken instanceId : string)
    : MasterProcess * list SupervisorEffect :=
  fork_workers (seqZ 0 numWorkers)
    {| lobbyService := new_MasterLobbyService;
       admin_token := adminToken; instance_id := instanceId;
       forked := 0%nat |}.

(** The [cluster.on("exit", ...)] handler; [parsed] is the result of
    [parseInt(workerId)]. *)
Definition onExit (worker : Worker) (code : option Z)
    (signal : option string) (parsed : Z) (m : MasterProcess)
    : MasterProcess * list SupervisorEffect :=
  match process_env_WORKER_ID worker with
  | None => (m, [SLog Error_CouldNotFindId])
  | Some workerId =>
      let workerIdNum := parsed in
      let removed := removeWorker workerIdNum (lobbyService m) in
      let env := {| WORKER_ID := workerId; ADMIN_TOKEN := admin_token m;
                    INSTANCE_ID := instance_id m |} in
      let newWorker := cluster_fork env m in
      ({| lobbyService := registerWorker workerIdNum newWorker removed;
          admin_token := admin_token m; instance_id := instance_id m;
          forked := S (forked m) |},
       [SLog (Warn_WorkerDied workerId (handle worker) code signal);
        SLog (Info_RestartingWorker workerId);
        Fork env newWorker;
        SLog (Info_RestartedWorker workerId (handle newWorker))])
  end.
End supervisor.

(** ** The aggregate view as the specification words it

    The following definitions read a history (latest event first) the way
    the specification describes the coordinator; they do not look at the
    state of [MasterLobbyService]. *)

Section aggregate_spec.
Context `{CoreSchemas}.

(** The handle currently registered under identity [k]. *)
Fixpoint spec_registered (h : list Event) (k : Z) : option Worker :=
  match h with
  | [] => None
  | RegisterWorker k' w :: h' =>
      if decide (k' = k) then Some w else spec_registered h' k
  | RemoveWorker k' :: h' =>
      if decide (k' = k) then None else spec_registered h' k
  | Message _ _ :: h' => spec_registered h' k
  end.

(** The identities currently registered, in the order of registration. *)
Fixpoint spec_workers (h : list Event) : list Z :=
  match h with
  | [] => []
  | RegisterWorker k _ :: h' =>
      if decide (k ∈ spec_workers h') then spec_workers h'
      else spec_workers h' ++ [k]
  | RemoveWorker k :: h' => filter (λ k', k' ≠ k) (spec_workers h')
  | Message _ _ :: h' => spec_workers h'
  end.

(** The most recent lobby list reported by worker [k]: the last
    [lobbyList] that has arrived from the handle registered under [k] since
    that handle was registered. A registration of [k] starts without a
    report, and a removal of [k] discards it. *)
Fixpoint spec_latest_report (h : list Event) (k : Z)
    : option (list PublicGameInfo) :=
  match h with
  | [] => None
  | RegisterWorker k' _ :: h' =>
      if decide (k' = k) then None else spec_latest_report h' k
  | RemoveWorker k' :: h' =>
      if decide (k' = k) then None else spec_latest_report h' k
  | Message w raw :: h' =>
      match WorkerMessageSchema_safeParse raw with
      | Some (WorkerLobbyList lobbies) =>
          if decide (spec_registered h' k = Some w) then Some lobbies
          else spec_latest_report h' k
      | _ => spec_latest_report h' k
      end
  end.

(** The concatenation of the most recent report of each currently
    registered worker. *)
Definition spec_reports (h : list Event) : list PublicGameInfo :=
  concat (omap (spec_latest_report h) (spec_workers h)).

(** What the specification says of the aggregate after history [h]: it is
    the reports of the registered workers, sorted by [startsAt], and no
    lobby list is held for an identity that is not registered. *)
Definition aggregate_as_specified `{ServerConfig} (h : list Event) : Prop :=
  let s := state_after h in
  getAllLobbies s ≡ₚ spec_reports h
  ∧ StronglySorted (λ a b, startsAt a ≤ startsAt b) (getAllLobbies s)
  ∧ ∀ k, spec_registered h k = None → JSMap.get k (workerLobbies s) = None.

(** No registration replaces a worker that has reported: an identity is
    registered when it is not registered (at start-up, or after
    [removeWorker]) or before its worker has sent a lobby list. *)
Fixpoint registers_without_report (h : list Event) : Prop :=
  match h with
  | [] => True
  | RegisterWorker k _ :: h' =>
      spec_latest_report h' k = None ∧ registers_without_report h'
  | _ :: h' => registers_without_report h'
  end.

(** Every [lobbyList] arrives on a worker object that is, at that moment,
    the registered handle of each identity it was ever registered under: no
    report on the object of a removed or replaced worker. Messages of
    other kinds are not restricted. *)
Fixpoint no_stale_report (h : list Event) : Prop :=
  match h with
  | [] => True
  | Message w raw :: h' =>
      (∀ lobbies,
         WorkerMessageSchema_safeParse raw = Some (WorkerLobbyList lobbies) →
         ∀ k, In (RegisterWorker k w) h' → spec_registered h' k = Some w)
      ∧ no_stale_report h'
  | _ :: h' => no_stale_report h'
  end.
End aggregate_spec.

(** ** Readiness, as the specification words it *)

Section readiness_spec.
Context `{CoreSchemas}.

(** A listener has been attached to the worker object [w]. *)
Fixpoint attached (w : Worker) (h : list Event) : bool :=
  match h with
  | [] => false
  | RegisterWorker _ w' :: h' => bool_decide (w' = w) || attached w h'
  | _ :: h' => attached w h'
  end.

(** A [workerReady] message that carries the id [k] has been received (on
    an object that has a listener). *)
Fixpoint ready_id_received (h : list Event) (k : Z) : Prop :=
  match h with
  | [] => False
  | Message w raw :: h' =>
      (attached w h' = true
       ∧ WorkerMessageSchema_safeParse raw = Some (WorkerReady k))
      ∨ ready_id_received h' k
  | _ :: h' => ready_id_received h' k
  end.

(** A [workerReady] message that carries the id [id] has arrived from
    worker [k], that is on the object registered under [k] at that
    moment. *)
Fixpoint signal_from (h : list Event) (k id : Z) : Prop :=
  match h with
  | [] => False
  | Message w raw :: h' =>
      (spec_registered h' k = Some w
       ∧ WorkerMessageSchema_safeParse raw = Some (WorkerReady id))
      ∨ signal_from h' k id
  | _ :: h' => signal_from h' k id
  end.

(** A [workerReady] signal has been received from worker [k]. *)
Definition ready_received_from (h : list Event) (k : Z) : Prop :=
  ∃ id, signal_from h k id.


End readiness_spec.

(** Adding [id] brings the ready-set to [numWorkers] elements. *)
Definition fills `{ServerConfig} (id : Z) (s : MasterLobbyService) : bool :=
  bool_decide (Z.of_nat (size ({[id]} ∪ readyWorkers s)) = numWorkers).

(** How often a polling loop has been started. *)
Definition starts (task : PollTask) (e : MasterEffect) : bool :=
  match e with
  | StartPolling t _ => bool_decide (t = task)
  | _ => false
  end.

Definition polling_starts (task : PollTask) (es : list MasterEffect) : nat :=
  length (filter (λ e, starts task e = true) es).

(** Readiness gating as the specification states it: the loops are not
    started before a ready signal has been received from every configured
    worker, and once [numWorkers] distinct ready signals have arrived each
    loop has been started exactly once. *)
Definition gating_as_specified `{CoreSchemas} `{ServerConfig}
    (h : list Event) : Prop :=
  (started (state_after h) = true →
   ∀ k, 0 ≤ k < numWorkers → ready_received_from h k)
  ∧ ((∃ ids : list Z, NoDup ids ∧ Z.of_nat (length ids) = numWorkers
                      ∧ ∀ k, k ∈ ids → ready_id_received h k) →
     ∀ task, polling_starts task (effects_of h) = 1%nat).

(** [Number.isSafeInteger], for a number that is an integer: its absolute
    value is at most [Number.MAX_SAFE_INTEGER]. *)
Definition Number_MAX_SAFE_INTEGER : Z := 2 ^ 53 - 1.

Definition Number_isSafeInteger (n : Z) : Prop :=
  - Number_MAX_SAFE_INTEGER ≤ n ≤ Number_MAX_SAFE_INTEGER.

(** ** Counting the commands of a scheduling tick *)

Definition is_createGame (e : MasterEffect) : bool :=
  match e with
  | WorkerSend _ (MasterCreateGame _ _ _) => true
  | _ => false
  end.

Definition createGame_count (r : TickResult) : nat :=
  match r with
  | Returned es => length (filter (λ e, is_createGame e = true) es)
  | Rejected => 0%nat
  end.

(** The liveness threshold as the specification states it, for a tick that
    begins and resumes in state [s]. *)
Definition threshold_as_specified `{CoreSchemas} `{ServerConfig}
    (now : Z) (generated : GameID) (playlist : option GameConfig)
    (s : MasterLobbyService) : Prop :=
  let sent := createGame_count (maybeScheduleLobby now generated playlist s s) in
  ((length (getAllLobbies s) < 2)%nat → sent = 1%nat)
  ∧ ((2 ≤ length (getAllLobbies s))%nat → sent = 0%nat).

(** A later event that leaves the registration of identity [k] alone. *)
Definition keeps_registration (k : Z) (e : Event) : Prop :=
  match e with
  | RegisterWorker k' _ | RemoveWorker k' => k' ≠ k
  | Message _ _ => True
  end.

(** The last lobby list that the worker object [w] has reported in the
    course of the events [rest] (latest first). *)
Fixpoint last_report_of `{CoreSchemas} (w : Worker) (rest : list Event)
    : option (list PublicGameInfo) :=
  match rest with
  | [] => None
  | Message w0 raw :: rest' =>
      match WorkerMessageSchema_safeParse raw with
      | Some (WorkerLobbyList lobbies) =>
          if decide (w0 = w) then Some lobbies else last_report_of w rest'
      | _ => last_report_of w rest'
      end
  | _ :: rest' => last_report_of w rest'
  end.

(** Crash recovery as the specification states it: after
    [removeWorker(k)] and [registerWorker(k, w')], and whatever events
    [rest] follow that leave the registration of [k] alone, [w'] is the
    handle of [k] and what the coordinator holds for [k], and so puts into
    the aggregate, is what the new worker has reported since. *)
Definition recovery_as_specified `{CoreSchemas} `{ServerConfig}
    (h rest : list Event) (k : Z) (w' : Worker) : Prop :=
  let s := state_after (rest ++ RegisterWorker k w' :: RemoveWorker k :: h) in
  JSMap.get k (workers s) = Some w'
  ∧ JSMap.get k (workerLobbies s) = last_report_of w' rest.

(** None of the events [rest] is a [lobbyList] on a worker object, other
    than [w'], that was registered under [k] in the course of [h]. *)
Definition no_report_on_old_handle `{CoreSchemas}
    (k : Z) (w' : Worker) (h rest : list Event) : Prop :=
  ∀ w raw lobbies,
    In (Message w raw) rest →
    WorkerMessageSchema_safeParse raw = Some (WorkerLobbyList lobbies) →
    In (RegisterWorker k w) h → w = w'.

(** ** The restart of a worker, as the specification words it

    On the exit of [worker] the supervisor deregisters it, logs code and
    signal, forks a replacement with the worker's [WORKER_ID] and the shared
    tokens, and registers the replacement under the same identity. *)
Definition restarted_with (workerId : EnvValue)
    (worker : Worker) (code : option Z) (signal : option string)
    (parsed : Z) (m : MasterProcess) : Prop :=
  let '(m', effects) := onExit worker code signal parsed m in
  ∃ newWorker,
    let env := {| WORKER_ID := workerId; ADMIN_TOKEN := admin_token m;
                  INSTANCE_ID := instance_id m |} in
    In (SLog (Warn_WorkerDied workerId (handle worker) code signal)) effects
    ∧ In (Fork env newWorker) effects
    ∧ lobbyService m'
      = registerWorker parsed newWorker
          (removeWorker parsed (lobbyService m))
    ∧ JSMap.get parsed (workers (lobbyService m')) = Some newWorker
    ∧ admin_token m' = admin_token m ∧ instance_id m' = instance_id m.

Definition restarted_as_specified
    (worker : Worker) (code : option Z) (signal : option string)
    (parsed : Z) (m : MasterProcess) : Prop :=
  ∃ workerId, restarted_with workerId worker code signal parsed m.

(** The number of lobbies a lobby manager holds under an id. *)
Definition lobbies_with_id (id : GameID) (gm : GameManager) : nat :=
  length (filter (λ entry, entry.1 = id) gm).

(** ** A concrete instance, to run the model on *)

(** Modelled from the spec: core/Schemas.ts is missing from the sources; the
    specification gives a lobby summary as
    [{ gameID: string, numClients: int, startsAt: timestamp, gameConfig: opaque }]. *)
Definition spec_PublicGameInfoSchema (v : JSON) : option PublicGameInfo :=
  match v with
  | JObj fields =>
      match obj_get "gameID" fields, obj_get "numClients" fields,
            obj_get "startsAt" fields, obj_get "gameConfig" fields with
      | Some (JStr id), Some (JNum n), Some (JNum t), Some cfg =>
          Some {| gameID := id; numClients := n; startsAt := t;
                  gameConfig := cfg |}
      | _, _, _, _ => None
      end
  | _ => None
  end.

(** Modelled from the spec: core/Schemas.ts is missing from the sources; the
    specification gives the global view as [{ serverTime, games }]. *)
Definition spec_PublicGamesSchema (v : JSON) : option PublicGames :=
  match v with
  | JObj fields =>
      match obj_get "serverTime" fields, obj_get "games" fields with
      | Some (JNum t), Some (JArr items) =>
          (λ gs, {| serverTime := t; games := gs |})
            <$> mapM spec_PublicGameInfoSchema items
      | _, _ => None
      end
  | _ => None
  end.

(** Modelled from the spec: the three schemas of core/Schemas.ts, the game
    configuration being opaque. *)
Definition spec_schemas : CoreSchemas :=
  {| PublicGameInfoSchema := spec_PublicGameInfoSchema;
     PublicGamesSchema := spec_PublicGamesSchema;
     GameConfigSchema := Some |}.

(** Two workers, a lobby every minute; the hash is the length of the id. *)
Definition two_workers : ServerConfig :=
  {| numWorkers := 2; gameCreationRate := 60000;
     simpleHash := λ id, Z.of_nat (String.length id) |}.

(** The worker objects of the two workers, as [cluster.fork] returns them,
    and the object of a replacement of worker 0. *)
Definition worker_a : Worker :=
  {| handle := 0; process_env_WORKER_ID := None |}.
Definition worker_b : Worker :=
  {| handle := 1; process_env_WORKER_ID := None |}.
Definition worker_a' : Worker :=
  {| handle := 2; process_env_WORKER_ID := None |}.

(** A worker's lobby manager holding one public lobby, and the report it
    sends. *)
Definition one_lobby : GameManager :=
  gm_createGame "AbCdEfGh" (JObj []) None (Some 90000) [].

Definition report_one_lobby : JSON := lobbyListMessage one_lobby.

Definition lobby_AbCdEfGh : PublicGameInfo :=
  {| gameID := "AbCdEfGh"; numClients := 0; startsAt := 90000;
     gameConfig := JObj [] |}.

(** Both workers registered and ready. *)
Definition history_running : list Event :=
  [Message worker_b (readyMessage 1); Message worker_a (readyMessage 0);
   RegisterWorker 1 worker_b; RegisterWorker 0 worker_a].

(** ... then worker 0 reports its lobby. *)
Definition history_reported : list Event :=
  Message worker_a report_one_lobby :: history_running.

(** ... or the report arrives after worker 0 has been removed. *)
Definition history_stale : list Event :=
  Message worker_a report_one_lobby :: RemoveWorker 0 :: history_running.

(** Worker 0 has reported its lobby and is then registered again, with a
    new object, without having been removed. *)
Definition history_replaced : list Event :=
  RegisterWorker 0 worker_a' :: history_reported.


(** Worker 0 signals, is removed and replaced, then worker 1 signals. *)
Definition history_removed_between : list Event :=
  [Message worker_b (readyMessage 1);
   RegisterWorker 0 worker_a'; RemoveWorker 0;
   Message worker_a (readyMessage 0);
   RegisterWorker 1 worker_b; RegisterWorker 0 worker_a].

(** A worker with one open and one closing viewer connection. *)
Definition viewer_open : WebSocket := {| socket := 10; readyState := OPEN |}.
Definition viewer_closing : WebSocket :=
  {| socket := 11; readyState := CLOSING |}.

Definition worker_service : WorkerLobbyService :=
  {| lobbyClients := [viewer_open; viewer_closing]; gm := one_lobby;
     process_send := true |}.

Definition empty_view : PublicGames := {| serverTime := 1000; games := [] |}.

Definition broadcast_message : JSON :=
  JObj [("type", JStr "lobbiesBroadcast");
        ("publicGames", JObj [("serverTime", JNum 1000); ("games", JArr [])])].

Definition create_message : JSON :=
  createGameMessage "ZyXwVuTs" (JObj []) 150000.

(** An object with an unknown discriminator. *)
Definition invalid_message : JSON := JObj [("type", JStr "ping")].

(** The master process after [startMaster] with two workers. *)
Definition master_started : MasterProcess :=
  (@startMaster two_workers "5f2a" "DEV_ID").1.

(** ** WorkerLobbyService.ts: the viewer connections *)

(** [String.prototype.endsWith]: the last [searchString.length] characters
    of [s] are [searchString]. *)
Definition String_endsWith (s searchString : string) : bool :=
  let len := String.length s in
  let searchLength := String.length searchString in
  if decide (searchLength ≤ len)%nat
  then bool_decide
         (String.substring (len - searchLength) searchLength s = searchString)
  else false.

(** The server that [setupUpgradeHandler] hands an upgrade request to. *)
Inductive UpgradeTarget := ToLobbiesWss | ToGameWss.

(** [url] is [request.url], [None] when it is [undefined]. *)
Definition upgrade_target (url : option string) : UpgradeTarget :=
  let pathname := default "" url in
  if bool_decide (pathname = "/lobbies") || String_endsWith pathname "/lobbies"
  then ToLobbiesWss else ToGameWss.

Inductive ViewerLog :=
| Error_LobbiesWebSocket
| Error_ClosingLobbiesWebSocket.

Inductive ViewerEffect :=
| VLog (entry : ViewerLog)
| WsClose (client : WebSocket) (code : Z) (reason : string).

(** [Set.add] on the viewer set: an object that is already a member is not
    added again. *)
Definition add_client (c : WebSocket) (clients : list WebSocket)
    : list WebSocket :=
  if bool_decide (socket c ∈ socket <$> clients) then clients
  else clients ++ [c].

(** The ["connection"] listener of [setupLobbiesWebSocket]. *)
Definition onConnection (ws : WebSocket) (s : WorkerLobbyService)
    : WorkerLobbyService :=
  {| lobbyClients := add_client ws (lobbyClients s);
     gm := gm s; process_send := process_send s |}.

(** The ["close"] listener of a viewer connection. *)
Definition onClose (ws : WebSocket) (s : WorkerLobbyService)
    : WorkerLobbyService :=
  {| lobbyClients := delete_client ws (lobbyClients s);
     gm := gm s; process_send := process_send s |}.

(** The ["error"] listener of a viewer connection; [ws] carries the state
    the socket is in when the error is raised, [closeThrows] tells whether
    [ws.close] throws. *)
Definition onError (ws : WebSocket) (closeThrows : bool)
    (s : WorkerLobbyService) : WorkerLobbyService * list ViewerEffect :=
  ({| lobbyClients := delete_client ws (lobbyClients s);
      gm := gm s; process_send := process_send s |},
   VLog Error_LobbiesWebSocket
   :: if bool_decide (readyState ws = OPEN)
         || bool_decide (readyState ws = CONNECTING)
      then WsClose ws 1011 "WebSocket internal error"
           :: (if closeThrows then [VLog Error_ClosingLobbiesWebSocket]
               else [])
      else []).

(** ** Master.ts: the master process at work *)

(** What reaches the master process once [startMaster] has returned: the
    exit of a worker, or a message of a worker to the listener that the
    lobby service attached. *)
Inductive MasterEvent :=
| WorkerExit (worker : Worker) (code : option Z) (signal : option string)
             (parsed : Z)
| WorkerSays (worker : Worker) (raw : JSON).

Definition master_step `{CoreSchemas} `{ServerConfig}
    (e : MasterEvent) (m : MasterProcess) : MasterProcess :=
  match e with
  | WorkerExit worker code signal parsed =>
      (onExit worker code signal parsed m).1
  | WorkerSays worker raw =>
      {| lobbyService := (step (Message worker raw) (lobbyService m)).1;
         admin_token := admin_token m; instance_id := instance_id m;
         forked := forked m |}
  end.

(** The master process after the events, in the order they happen. *)
Definition master_after `{CoreSchemas} `{ServerConfig}
    (events : list MasterEvent) (m : MasterProcess) : MasterProcess :=
  foldl (λ m e, master_step e m) m events.

(** The registrations that the fork loop of [startMaster] makes for the
    identities [ids], the first worker object being number [n]. *)
Fixpoint pool_from (n : nat) (ids : list Z) : list (Z * Worker) :=
  match ids with
  | [] => []
  | i :: ids' =>
      (i, {| handle := n; process_env_WORKER_ID := None |})
      :: pool_from (S n) ids'
  end.

(** The events that the cluster delivers: the worker of an exit is an
    object that [cluster.fork] has returned. *)
Definition of_cluster_worker (e : MasterEvent) : Prop :=
  match e with
  | WorkerExit worker _ _ _ => process_env_WORKER_ID worker = None
  | WorkerSays _ _ => True
  end.

(** The events that are messages. *)
Definition is_WorkerSays (e : MasterEvent) : bool :=
  match e with
  | WorkerSays _ _ => true
  | WorkerExit _ _ _ _ => false
  end.

(** The forks among the effects of the supervisor. *)
Definition forks (es : list SupervisorEffect) : list (ForkEnv * Worker) :=
  omap (λ e, match e with Fork env w => Some (env, w) | SLog _ => None end) es.

(** ** client/PublicLobby.ts: the consumer of the global view *)

(** JavaScript truthiness of a value. *)
Definition truthy (v : JSON) : bool :=
  match v with
  | JNull => false
  | JBool b => b
  | JNum n => negb (bool_decide (n = 0))
  | JStr s => negb (bool_decide (s = ""))
  | JArr _ | JObj _ => true
  end.

(** Property read [v.k] on any value. *)
Definition property (k : string) (v : JSON) : option JSON :=
  match v with
  | JObj fields => obj_get k fields
  | _ => None
  end.

Inductive PublicLobbyEffect :=
| LoadMapImage (gameID : GameID) (gameMap : option JSON)
| RequestUpdate.

Record PublicLobby := {
  publicGames : option PublicGames;
  lobbyIDToStart : list (GameID * Z);
  serverTimeOffset : Z;
  mapImages : list (GameID * string);
}.

(** The body of the [forEach] of [handleLobbiesUpdate] for one lobby. *)
Definition noteLobby (offset : Z) (mapImages : list (GameID * string))
    (acc : list (GameID * Z) * list PublicLobbyEffect) (l : PublicGameInfo)
    : list (GameID * Z) * list PublicLobbyEffect :=
  let starts :=
    match JSMap.get (gameID l) acc.1 with
    | Some _ => acc.1
    | None => JSMap.set (gameID l) (startsAt l - offset) acc.1
    end in
  let loads :=
    if truthy (gameConfig l)
       && negb (bool_decide (is_Some (JSMap.get (gameID l) mapImages)))
    then [LoadMapImage (gameID l) (property "gameMap" (gameConfig l))]
    else [] in
  (starts, acc.2 ++ loads).

(** [handleLobbiesUpdate]; [now] is [Date.now()]. *)
Definition handleLobbiesUpdate (update : PublicGames) (now : Z)
    (s : PublicLobby) : PublicLobby * list PublicLobbyEffect :=
  let offset := serverTime update - now in
  let '(starts, loads) :=
    foldl (noteLobby offset (mapImages s)) (lobbyIDToStart s, [])
          (games update) in
  ({| publicGames := Some update; lobbyIDToStart := starts;
      serverTimeOffset := offset; mapImages := mapImages s |},
   loads ++ [RequestUpdate]).


(** ** client/LobbySocket.ts: the viewer's end of the connection *)

Inductive SocketLog :=
| Log_Connected
| Error_ParsingMessage
| Error_ClosingAfterParseFailure
| Log_Disconnected
| Error_MaxAttemptsReached
| Error_WebSocketError
| Error_Connecting.

Inductive SocketEffect :=
| Console (entry : SocketLog)
| NewWebSocket (url : string) (object : nat)
| CloseWebSocket (object : nat)
| SetTimeout (delayMs : Z) (timer : nat)
| ClearTimeout (timer : nat)
| Alert (message : string)
| OnLobbiesUpdate (data : PublicGames).

(** [ws] and [wsReconnectTimeout] are [None] when they are [null]. *)
Record PublicLobbySocket := {
  ws : option nat;
  wsReconnectTimeout : option nat;
  wsConnectionAttempts : Z;
  wsAttemptCounted : bool;
  workerPath : string;
  reconnectDelay : Z;
  maxWsAttempts : Z;
}.

(** The constructor; the arguments are the two options, [None] when left
    out. *)
Definition new_PublicLobbySocket (delay attempts : option Z)
    : PublicLobbySocket :=
  {| ws := None; wsReconnectTimeout := None; wsConnectionAttempts := 0;
     wsAttemptCounted := false; workerPath := "";
     reconnectDelay := default 3000 delay;
     maxWsAttempts := default 3 attempts |}.

(** What a call of [connectWebSocket] meets: the page it runs in, whether
    closing the old socket or constructing the new one throws, and the
    identities of the socket and of the timer that it may create. *)
Record ConnectEnv := {
  https : bool;
  host : string;
  closeThrows : bool;
  constructorThrows : bool;
  newSocket : nat;
  newTimer : nat;
}.

Definition lobbiesUrl (env : ConnectEnv) (s : PublicLobbySocket) : string :=
  (if https env then "wss:" else "ws:") +:+ "//" +:+ host env
  +:+ workerPath s +:+ "/lobbies".

(** [scheduleReconnect]; [timer] is the handle that [setTimeout] returns. *)
Definition scheduleReconnect (timer : nat) (s : PublicLobbySocket)
    : PublicLobbySocket * list SocketEffect :=
  match wsReconnectTimeout s with
  | Some _ => (s, [])
  | None =>
      ({| ws := ws s; wsReconnectTimeout := Some timer;
          wsConnectionAttempts := wsConnectionAttempts s;
          wsAttemptCounted := wsAttemptCounted s;
          workerPath := workerPath s; reconnectDelay := reconnectDelay s;
          maxWsAttempts := maxWsAttempts s |},
       [SetTimeout (reconnectDelay s) timer])
  end.

(** The part that [handleClose] and [handleConnectError] share: count the
    failure once per connection. *)
Definition countAttempt (s : PublicLobbySocket) : PublicLobbySocket :=
  if wsAttemptCounted s then s
  else {| ws := ws s; wsReconnectTimeout := wsReconnectTimeout s;
          wsConnectionAttempts := wsConnectionAttempts s + 1;
          wsAttemptCounted := true;
          workerPath := workerPath s; reconnectDelay := reconnectDelay s;
          maxWsAttempts := maxWsAttempts s |}.

Definition handleClose (timer : nat) (s : PublicLobbySocket)
    : PublicLobbySocket * list SocketEffect :=
  let s1 := countAttempt s in
  if bool_decide (maxWsAttempts s1 ≤ wsConnectionAttempts s1) then
    (s1, [Console Log_Disconnected; Console Error_MaxAttemptsReached])
  else
    let '(s2, e2) := scheduleReconnect timer s1 in
    (s2, Console Log_Disconnected :: e2).

Definition handleConnectError (timer : nat) (s : PublicLobbySocket)
    : PublicLobbySocket * list SocketEffect :=
  let s1 := countAttempt s in
  if bool_decide (maxWsAttempts s1 ≤ wsConnectionAttempts s1) then
    (s1, [Console Error_Connecting;
          Alert "error connecting to game service"])
  else
    let '(s2, e2) := scheduleReconnect timer s1 in
    (s2, Console Error_Connecting :: e2).

Definition connectWebSocket (env : ConnectEnv) (s : PublicLobbySocket)
    : PublicLobbySocket * list SocketEffect :=
  let with_ws (w : option nat) (counted : bool) :=
    {| ws := w; wsReconnectTimeout := wsReconnectTimeout s;
       wsConnectionAttempts := wsConnectionAttempts s;
       wsAttemptCounted := counted;
       workerPath := workerPath s; reconnectDelay := reconnectDelay s;
       maxWsAttempts := maxWsAttempts s |} in
  let closing := from_option (λ old, [CloseWebSocket old]) [] (ws s) in
  if bool_decide (is_Some (ws s)) && closeThrows env then
    let '(s1, e1) := handleConnectError (newTimer env) s in
    (s1, closing ++ e1)
  else if constructorThrows env then
    let '(s1, e1) :=
      handleConnectError (newTimer env) (with_ws None (wsAttemptCounted s)) in
    (s1, closing ++ e1)
  else
    (with_ws (Some (newSocket env)) false,
     closing ++ [NewWebSocket (lobbiesUrl env s) (newSocket env)]).

Definition handleOpen (s : PublicLobbySocket)
    : PublicLobbySocket * list SocketEffect :=
  ({| ws := ws s; wsReconnectTimeout := None; wsConnectionAttempts := 0;
      wsAttemptCounted := wsAttemptCounted s;
      workerPath := workerPath s; reconnectDelay := reconnectDelay s;
      maxWsAttempts := maxWsAttempts s |},
   Console Log_Connected
   :: from_option (λ timer, [ClearTimeout timer]) [] (wsReconnectTimeout s)).

(** [handleMessage]. [parsed] is the result of [JSON.parse(event.data)],
    [None] when it throws; [listenerThrows] tells whether
    [onLobbiesUpdate] throws; [open] whether the socket's [readyState] is
    [OPEN]; [closeFails] whether [ws.close()] throws. The state does not
    change. *)
Definition handleMessage `{CoreSchemas} (parsed : option JSON)
    (listenerThrows open closeFails : bool) (s : PublicLobbySocket)
    : list SocketEffect :=
  let failure :=
    Console Error_ParsingMessage
    :: match ws s with
       | Some object =>
           if open then
             CloseWebSocket object
             :: (if closeFails then [Console Error_ClosingAfterParseFailure]
                 else [])
           else []
       | None => []
       end in
  match parsed ≫= PublicGamesSchema with
  | Some data =>
      OnLobbiesUpdate data :: (if listenerThrows then failure else [])
  | None => failure
  end.

(** The callback that [scheduleReconnect] has put on the timer. *)
Definition onReconnectTimer (env : ConnectEnv) (s : PublicLobbySocket)
    : PublicLobbySocket * list SocketEffect :=
  connectWebSocket env
    {| ws := ws s; wsReconnectTimeout := None;
       wsConnectionAttempts := wsConnectionAttempts s;
       wsAttemptCounted := wsAttemptCounted s;
       workerPath := workerPath s; reconnectDelay := reconnectDelay s;
       maxWsAttempts := maxWsAttempts s |}.

(** [start] up to its [await]. *)
Definition start_begin (s : PublicLobbySocket) : PublicLobbySocket :=
  {| ws := ws s; wsReconnectTimeout := wsReconnectTimeout s;
     wsConnectionAttempts := 0;
     wsAttemptCounted := wsAttemptCounted s;
     workerPath := workerPath s; reconnectDelay := reconnectDelay s;
     maxWsAttempts := maxWsAttempts s |}.

(** [start] once the configuration has arrived; [path] is the result of
    [getRandomWorkerPath]. *)
Definition start_resume (path : string) (env : ConnectEnv)
    (s : PublicLobbySocket) : PublicLobbySocket * list SocketEffect :=
  connectWebSocket env
    {| ws := ws s; wsReconnectTimeout := wsReconnectTimeout s;
       wsConnectionAttempts := wsConnectionAttempts s;
       wsAttemptCounted := wsAttemptCounted s;
       workerPath := path; reconnectDelay := reconnectDelay s;
       maxWsAttempts := maxWsAttempts s |}.

(** [stop], when [ws.close()] does not throw. *)
Definition stop (s : PublicLobbySocket)
    : PublicLobbySocket * list SocketEffect :=
  ({| ws := None; wsReconnectTimeout := None;
      wsConnectionAttempts := wsConnectionAttempts s;
      wsAttemptCounted := wsAttemptCounted s;
      workerPath := workerPath s; reconnectDelay := reconnectDelay s;
      maxWsAttempts := maxWsAttempts s |},
   from_option (λ object, [CloseWebSocket object]) [] (ws s)
   ++ from_option (λ timer, [ClearTimeout timer]) [] (wsReconnectTimeout s)).

(** A connection that is lost and retried: the socket closes, and if a
    reconnect has been scheduled its timer fires. *)
Definition lostConnection (env : ConnectEnv) (s : PublicLobbySocket)
    : PublicLobbySocket * list SocketEffect :=
  let '(s1, e1) := handleClose (newTimer env) s in
  match wsReconnectTimeout s1 with
  | Some _ =>
      let '(s2, e2) := onReconnectTimer env s1 in (s2, e1 ++ e2)
  | None => (s1, e1)
  end.

Fixpoint lostConnections (envs : list ConnectEnv) (s : PublicLobbySocket)
    : PublicLobbySocket * list SocketEffect :=
  match envs with
  | [] => (s, [])
  | env :: envs' =>
      let '(s1, e1) := lostConnection env s in
      let '(s2, e2) := lostConnections envs' s1 in
      (s2, e1 ++ e2)
  end.

(** A call of [connectWebSocket] in which nothing throws. *)
Definition calm (env : ConnectEnv) : Prop :=
  closeThrows env = false ∧ constructorThrows env = false.

(** The sockets that a run has opened. *)
Definition opened (es : list SocketEffect) : nat :=
  length (omap (λ e, match e with
                     | NewWebSocket _ object => Some object
                     | _ => None
                     end) es).

(** * Theorems *)

(** ** Insertion-ordered maps *)

Module JSMapFacts.
Import JSMap.

Section facts.
Context {K : Type} `{EqDecision K} {V : Type}.
Implicit Types (m : list (K * V)) (k : K) (v : V).

Lemma get_set m k k' v :
  get k' (set k v m) = if decide (k = k') then Some v else get k' m.
Proof.
  induction m as [|[k0 v0] m IH]; simpl.
  - by destruct (decide (k = k')).
  - destruct (decide (k0 = k)) as [->|Hne]; simpl.
    + by destruct (decide (k = k')).
    + destruct (decide (k0 = k')) as [->|]; [|done].
      by destruct (decide (k = k')); [congruence|].
Qed.

Lemma get_delete m k k' :
  get k' (delete k m) = if decide (k = k') then None else get k' m.
Proof.
  induction m as [|[k0 v0] m IH]; simpl.
  - by destruct (decide (k = k')).
  - destruct (decide (k0 = k)) as [->|Hne]; simpl.
    + rewrite IH. destruct (decide (k = k')); [done|].
      by destruct (decide (k = k')).
    + destruct (decide (k0 = k')) as [->|]; [|done].
      by destruct (decide (k = k')); [congruence|].
Qed.

Lemma get_None_not_key m k : get k m = None ↔ k ∉ keys m.
Proof.
  unfold keys. induction m as [|[k0 v0] m IH]; simpl.
  - split; [intros _; apply not_elem_of_nil|done].
  - rewrite not_elem_of_cons. destruct (decide (k0 = k)) as [->|Hne].
    + split; [done|]. by intros [? _].
    + rewrite IH. split; [intros ?; split; [congruence|done]|by intros [_ ?]].
Qed.

Lemma keys_set m k v :
  keys (set k v m) = if decide (k ∈ keys m) then keys m else keys m ++ [k].
Proof.
  unfold keys. induction m as [|[k0 v0] m IH]; csimpl.
  - destruct (decide (k ∈ [])) as [Hin|]; [by apply elem_of_nil in Hin|done].
  - destruct (decide (k0 = k)) as [->|Hne]; csimpl.
    + by rewrite decide_True by left.
    + rewrite IH. destruct (decide (k ∈ m.*1)).
      * by rewrite decide_True by (by right).
      * rewrite decide_False; [done|].
        rewrite not_elem_of_cons. naive_solver.
Qed.

Lemma keys_delete m k : keys (delete k m) = filter (λ k', k' ≠ k) (keys m).
Proof.
  unfold keys. induction m as [|[k0 v0] m IH]; csimpl; [done|].
  destruct (decide (k0 = k)) as [->|Hne].
  - by rewrite filter_cons_False by naive_solver.
  - rewrite filter_cons_True by done. csimpl. by rewrite IH.
Qed.

Lemma NoDup_keys_set m k v : NoDup (keys m) → NoDup (keys (set k v m)).
Proof.
  intros Hnd. rewrite keys_set. destruct (decide (k ∈ keys m)); [done|].
  apply NoDup_app. split_and!; [done| |apply NoDup_singleton].
  intros x Hx ->%list_elem_of_singleton. done.
Qed.

Lemma NoDup_keys_delete m k : NoDup (keys m) → NoDup (keys (delete k m)).
Proof. intros Hnd. rewrite keys_delete. by apply NoDup_filter. Qed.

Lemma delete_not_key m k : k ∉ keys m → delete k m = m.
Proof.
  unfold keys. induction m as [|[k0 v0] m IH]; simpl; [done|].
  rewrite not_elem_of_cons. intros [Hne Hnin].
  rewrite decide_False by done. by rewrite IH.
Qed.

(** The values of a map, up to order: the value at [k] and the rest. *)
Lemma values_delete_Permutation m k v :
  NoDup (keys m) → get k m = Some v →
  values m ≡ₚ v :: values (delete k m).
Proof.
  unfold keys, values. induction m as [|[k0 v0] m IH]; simpl; [done|].
  intros [Hnin Hnd]%NoDup_cons. destruct (decide (k0 = k)) as [->|Hne].
  - intros [= ->]. by rewrite (delete_not_key m k).
  - intros Hget. simpl. rewrite (IH Hnd Hget). apply Permutation_swap.
Qed.

(** A map whose bindings are described by [f] on the keys [ks] holds
    the values that [f] gives on [ks], up to order. *)
Lemma get_Some_values m k v : get k m = Some v → v ∈ values m.
Proof.
  unfold values. induction m as [|[k0 v0] m IH]; csimpl; [done|].
  destruct (decide (k0 = k)); [intros [= ->]; left|right; auto].
Qed.

Lemma values_Permutation_omap (f : K → option V) (ks : list K) m :
  NoDup (keys m) → NoDup ks →
  (∀ k, get k m = if decide (k ∈ ks) then f k else None) →
  values m ≡ₚ omap f ks.
Proof.
  intros Hm Hks. revert m Hm.
  induction Hks as [|k ks Hnin Hks IH]; intros m Hm Hget.
  - destruct m as [|[k0 v0] m]; [done|]. exfalso.
    specialize (Hget k0).
    rewrite decide_False in Hget by apply not_elem_of_nil.
    apply get_None_not_key in Hget. apply Hget. unfold keys. csimpl. left.
  - assert (Hrest : ∀ k', get k' (delete k m)
              = if decide (k' ∈ ks) then f k' else None).
    { intros k'. rewrite get_delete, Hget.
      destruct (decide (k = k')) as [<-|Hne].
      - by rewrite decide_False.
      - destruct (decide (k' ∈ ks)) as [Hin|Hout].
        + by rewrite decide_True by (by right).
        + rewrite decide_False; [done|].
          rewrite not_elem_of_cons. naive_solver. }
    pose proof (Hget k) as Hk. rewrite decide_True in Hk by left.
    simpl. destruct (f k) as [v|] eqn:Hfk.
    + rewrite (values_delete_Permutation m k v Hm Hk).
      f_equiv. apply IH; [by apply NoDup_keys_delete|done].
    + apply get_None_not_key in Hk.
      rewrite <- (delete_not_key m k Hk) at 1.
      apply IH; [by apply NoDup_keys_delete|done].
Qed.
End facts.
End JSMapFacts.

(** ** The stable sort *)

Section array_sort_facts.
Context {A : Type} (key : A → Z).

Local Abbreviation by_key := (λ a b : A, key a - key b).
Local Abbreviation key_le := (λ a b : A, key a ≤ key b).

Lemma sort_insert_Permutation x l : sort_insert by_key x l ≡ₚ x :: l.
Proof.
  induction l as [|y l IH]; simpl; [done|].
  destruct (decide (key x - key y ≤ 0)); [done|].
  rewrite IH. apply Permutation_swap.
Qed.

Lemma Array_sort_Permutation l : Array_sort by_key l ≡ₚ l.
Proof.
  induction l as [|x l IH]; simpl; [done|].
  by rewrite sort_insert_Permutation, IH.
Qed.

Lemma sort_insert_StronglySorted x l :
  StronglySorted key_le l → StronglySorted key_le (sort_insert by_key x l).
Proof.
  induction 1 as [|y l Hl IH Hy]; simpl.
  - repeat constructor.
  - destruct (decide (key x - key y ≤ 0)) as [Hle|Hgt].
    + constructor; [by constructor|].
      constructor; [lia|]. eapply Forall_impl; [exact Hy|].
      simpl. intros z ?. lia.
    + constructor; [done|].
      rewrite sort_insert_Permutation. constructor; [lia|done].
Qed.

Lemma Array_sort_StronglySorted l :
  StronglySorted key_le (Array_sort by_key l).
Proof.
  induction l as [|x l IH]; simpl; [constructor|].
  by apply sort_insert_StronglySorted.
Qed.

(** Stability: elements with the same key keep their relative order. *)
Lemma sort_insert_stable x l k :
  StronglySorted key_le l →
  filter (λ a, key a = k) (sort_insert by_key x l)
  = filter (λ a, key a = k) (x :: l).
Proof.
  induction 1 as [|y l Hl IH Hy]; simpl; [done|].
  destruct (decide (key x - key y ≤ 0)) as [Hle|Hgt]; [done|].
  rewrite (filter_cons _ y), IH, !(filter_cons _ x), (filter_cons _ y).
  destruct (decide (key y = k)), (decide (key x = k)); try done. lia.
Qed.

Lemma Array_sort_stable l k :
  filter (λ a, key a = k) (Array_sort by_key l) = filter (λ a, key a = k) l.
Proof.
  induction l as [|x l IH]; simpl; [done|].
  rewrite sort_insert_stable by apply Array_sort_StronglySorted.
  by rewrite !filter_cons, IH.
Qed.
End array_sort_facts.

Lemma concat_Permutation {A} (ls1 ls2 : list (list A)) :
  ls1 ≡ₚ ls2 → concat ls1 ≡ₚ concat ls2.
Proof.
  induction 1 as [|l ls1 ls2 _ IH|l1 l2 ls|ls1 ls2 ls3 _ IH1 _ IH2]; simpl.
  - done.
  - by rewrite IH.
  - rewrite !(assoc (++)). f_equiv. apply Permutation_app_comm.
  - by rewrite IH1.
Qed.

(** ** The coordinator: what a step does to each field *)

Section master_facts.
Context `{CoreSchemas} `{ServerConfig}.
Implicit Types (s : MasterLobbyService) (h : list Event) (k : Z).

Lemma state_after_cons e h :
  state_after (e :: h) = (step e (state_after h)).1.
Proof.
  unfold state_after. cbn [run]. destruct (run h) as [s done].
  cbn [fst]. by destruct (step e s).
Qed.

Lemma effects_of_cons e h :
  effects_of (e :: h) = effects_of h ++ (step e (state_after h)).2.
Proof.
  unfold effects_of, state_after. cbn [run]. destruct (run h) as [s done].
  cbn [fst snd]. by destruct (step e s).
Qed.

Lemma handleWorkerReady_frame id s :
  let s' := (handleWorkerReady id s).1 in
  workers s' = workers s ∧ workerLobbies s' = workerLobbies s
  ∧ listeners s' = listeners s
  ∧ readyWorkers s' = {[id]} ∪ readyWorkers s.
Proof.
  unfold handleWorkerReady.
  by destruct (bool_decide _ && negb (started s)).
Qed.

Lemma onMessage_frame workerId raw s :
  let s' := (onMessage workerId raw s).1 in
  workers s' = workers s ∧ listeners s' = listeners s.
Proof.
  unfold onMessage.
  destruct (WorkerMessageSchema_safeParse raw) as [[lobbies|id]|]; simpl;
    [done| |done].
  by destruct (handleWorkerReady_frame id s) as (? & _ & ? & _).
Qed.

Lemma emit_frame ids raw s :
  let s' := (emit ids raw s).1 in
  workers s' = workers s ∧ listeners s' = listeners s.
Proof.
  revert s. induction ids as [|workerId ids IH]; intros s; simpl; [done|].
  destruct (onMessage workerId raw s) as [s1 e1] eqn:E1.
  destruct (IH s1) as [IHw IHl]. destruct (emit ids raw s1) as [s2 e2].
  destruct (onMessage_frame workerId raw s) as [Hw Hl].
  rewrite E1 in Hw, Hl. simpl in *. split; congruence.
Qed.

(** A message only touches [workerLobbies] when it is a [lobbyList], and
    then sets the entry of every identity a listener captured. *)
Lemma emit_workerLobbies ids raw s :
  workerLobbies (emit ids raw s).1
  = match WorkerMessageSchema_safeParse raw with
    | Some (WorkerLobbyList lobbies) =>
        foldl (λ m workerId, JSMap.set workerId lobbies m)
              (workerLobbies s) ids
    | _ => workerLobbies s
    end.
Proof.
  revert s. induction ids as [|workerId ids IH]; intros s; simpl.
  - by destruct (WorkerMessageSchema_safeParse raw) as [[]|].
  - destruct (onMessage workerId raw s) as [s1 e1] eqn:E1.
    specialize (IH s1). destruct (emit ids raw s1) as [s2 e2].
    simpl in *. rewrite IH. unfold onMessage in E1.
    destruct (WorkerMessageSchema_safeParse raw) as [[lobbies|id]|];
      simplify_eq; simpl; [done| |done].
    pose proof (handleWorkerReady_frame id s) as Hf. rewrite E1 in Hf.
    simpl in Hf. by destruct Hf as (_ & -> & _).
Qed.

Lemma get_foldl_set {V} (v : V) ids (m : list (Z * V)) k :
  JSMap.get k (foldl (λ m workerId, JSMap.set workerId v m) m ids)
  = if decide (k ∈ ids) then Some v else JSMap.get k m.
Proof.
  revert m. induction ids as [|i ids IH]; intros m; cbn [foldl].
  - by rewrite decide_False by apply not_elem_of_nil.
  - rewrite IH, JSMapFacts.get_set.
    destruct (decide (k ∈ ids)) as [Hin|Hout].
    + by rewrite decide_True by (by right).
    + destruct (decide (i = k)) as [->|Hne].
      * by rewrite decide_True by left.
      * rewrite decide_False; [done|].
        rewrite not_elem_of_cons. naive_solver.
Qed.

Lemma NoDup_keys_foldl_set {V} (v : V) ids (m : list (Z * V)) :
  NoDup (JSMap.keys m) →
  NoDup (JSMap.keys (foldl (λ m workerId, JSMap.set workerId v m) m ids)).
Proof.
  revert m. induction ids as [|i ids IH]; intros m Hm; simpl; [done|].
  by apply IH, JSMapFacts.NoDup_keys_set.
Qed.

(** ** The state after a history, field by field *)

Lemma listeners_after h w k :
  (w, k) ∈ listeners (state_after h) ↔ In (RegisterWorker k w) h.
Proof.
  induction h as [|e h IH]; [by rewrite elem_of_nil|].
  rewrite state_after_cons. destruct e as [k' w'|k'|w' raw]; simpl.
  - rewrite elem_of_app, list_elem_of_singleton, IH. naive_solver.
  - rewrite IH. naive_solver.
  - destruct (emit_frame (listeners_of w' (state_after h)) raw
                         (state_after h)) as [_ ->].
    rewrite IH. naive_solver.
Qed.

Lemma elem_of_listeners_of h w k :
  k ∈ listeners_of w (state_after h) ↔ In (RegisterWorker k w) h.
Proof.
  rewrite <- listeners_after. unfold listeners_of.
  rewrite list_elem_of_fmap. split.
  - intros ([w' k'] & -> & [Hw Hin]%list_elem_of_filter).
    simpl in Hw. by subst.
  - intros Hin. exists (w, k). split; [done|].
    by apply list_elem_of_filter.
Qed.

Lemma workers_after h k :
  JSMap.get k (workers (state_after h)) = spec_registered h k.
Proof.
  induction h as [|e h IH]; [done|].
  rewrite state_after_cons. destruct e as [k' w'|k'|w' raw]; simpl.
  - by rewrite JSMapFacts.get_set, IH.
  - by rewrite JSMapFacts.get_delete, IH.
  - by destruct (emit_frame (listeners_of w' (state_after h)) raw
                            (state_after h)) as [-> _].
Qed.

Lemma workers_keys_after h :
  JSMap.keys (workers (state_after h)) = spec_workers h.
Proof.
  induction h as [|e h IH]; [done|].
  rewrite state_after_cons. destruct e as [k' w'|k'|w' raw]; simpl.
  - by rewrite JSMapFacts.keys_set, IH.
  - by rewrite JSMapFacts.keys_delete, IH.
  - by destruct (emit_frame (listeners_of w' (state_after h)) raw
                            (state_after h)) as [-> _].
Qed.

Lemma spec_workers_registered h k :
  k ∈ spec_workers h ↔ is_Some (spec_registered h k).
Proof.
  rewrite <- workers_keys_after, <- workers_after.
  rewrite <- not_eq_None_Some, JSMapFacts.get_None_not_key.
  destruct (decide (k ∈ JSMap.keys (workers (state_after h)))); naive_solver.
Qed.

Lemma NoDup_spec_workers h : NoDup (spec_workers h).
Proof.
  induction h as [|[k' w'|k'|w' raw] h IH]; simpl;
    [constructor| |by apply NoDup_filter|done].
  destruct (decide (k' ∈ spec_workers h)); [done|].
  apply NoDup_app. split_and!; [done| |apply NoDup_singleton].
  by intros x Hx ->%list_elem_of_singleton.
Qed.

Lemma spec_registered_In h k w :
  spec_registered h k = Some w → In (RegisterWorker k w) h.
Proof.
  induction h as [|[k' w'|k'|w' raw] h IH]; simpl; [done| | |auto].
  - destruct (decide (k' = k)) as [->|]; [|auto]. intros [= ->]. by left.
  - destruct (decide (k' = k)); [done|auto].
Qed.

Lemma spec_latest_report_registered h k :
  is_Some (spec_latest_report h k) → is_Some (spec_registered h k).
Proof.
  induction h as [|[k' w'|k'|w' raw] h IH]; simpl.
  - by intros [? ?].
  - destruct (decide (k' = k)); [by eexists|done].
  - destruct (decide (k' = k)); [by intros [? ?]|done].
  - destruct (WorkerMessageSchema_safeParse raw) as [[lobbies|id]|];
      [|done..].
    destruct (decide (spec_registered h k = Some w')) as [->|]; [|done].
    by eexists.
Qed.

(** The keys of [workerLobbies] are distinct, as those of a [Map] are. *)
Lemma NoDup_workerLobbies_after h :
  NoDup (JSMap.keys (workerLobbies (state_after h))).
Proof.
  induction h as [|e h IH]; [constructor|].
  rewrite state_after_cons. destruct e as [k' w'|k'|w' raw]; simpl.
  - done.
  - by apply JSMapFacts.NoDup_keys_delete.
  - rewrite emit_workerLobbies.
    destruct (WorkerMessageSchema_safeParse raw) as [[lobbies|id]|];
      [|done..].
    by apply NoDup_keys_foldl_set.
Qed.

(** When no registration replaces a worker that has reported and no
    report arrives on a stale handle, the lobby lists held by the
    coordinator are the latest reports of the specification. *)
Lemma workerLobbies_after h :
  registers_without_report h → no_stale_report h →
  ∀ k, JSMap.get k (workerLobbies (state_after h)) = spec_latest_report h k.
Proof.
  induction h as [|e h IH]; [done|].
  rewrite state_after_cons. destruct e as [k' w'|k'|w' raw]; simpl.
  - intros [Hnew Hreg] Hfresh k. rewrite (IH Hreg Hfresh k).
    by destruct (decide (k' = k)) as [->|].
  - intros Hreg Hfresh k. by rewrite JSMapFacts.get_delete, (IH Hreg Hfresh k).
  - intros Hreg [Hnow Hfresh] k. rewrite emit_workerLobbies.
    destruct (WorkerMessageSchema_safeParse raw) as [[lobbies|id]|];
      [|by apply IH..].
    rewrite get_foldl_set, (IH Hreg Hfresh k).
    destruct (decide (k ∈ listeners_of w' (state_after h))) as [Hin|Hout].
    + apply elem_of_listeners_of, (Hnow lobbies eq_refl) in Hin.
      by rewrite decide_True.
    + rewrite decide_False; [done|].
      intros Hw%spec_registered_In. by apply Hout, elem_of_listeners_of.
Qed.
End master_facts.

(** ** The messages of the two sides fit each other's schema *)

Section wire.
Context `{CoreSchemas}.

Lemma readyMessage_parses (workerId : Z) :
  WorkerMessageSchema_safeParse (readyMessage workerId)
  = Some (WorkerReady workerId).
Proof. reflexivity. Qed.

Lemma createGameMessage_parses (id : GameID) (cfg cfg' : GameConfig) (t : Z) :
  GameConfigSchema cfg = Some cfg' →
  MasterMessageSchema_safeParse (createGameMessage id cfg t)
  = Some (MasterCreateGame id cfg' t).
Proof.
  intros Hcfg. unfold MasterMessageSchema_safeParse, createGameMessage.
  simpl. unfold MasterCreateGameSchema. simpl. by rewrite Hcfg.
Qed.
End wire.

Example report_one_lobby_parses :
  @WorkerMessageSchema_safeParse spec_schemas report_one_lobby
  = Some (WorkerLobbyList [lobby_AbCdEfGh]).
Proof. reflexivity. Qed.

(** ** The aggregate view *)

Section aggregate.
Context `{CoreSchemas} `{ServerConfig}.

(** A broadcast tick sends every registered worker the view whose [games]
    is [getAllLobbies]. *)
Lemma broadcastLobbies_sends_aggregate (now : Z) (s : MasterLobbyService)
    (e : MasterEffect) :
  e ∈ broadcastLobbies now s ↔
  ∃ worker, worker ∈ JSMap.values (workers s)
    ∧ e = WorkerSend worker
            (MasterLobbiesBroadcast
               {| serverTime := now; games := getAllLobbies s |}).
Proof.
  unfold broadcastLobbies. rewrite list_elem_of_fmap. naive_solver.
Qed.

(** C1 (as amended). After every history of registrations, removals and
    messages in which no registration replaces a worker that has
    reported, and in which no [lobbyList] arrives on the object of a
    worker that has been removed or replaced, the list
    computed by [getAllLobbies] is the concatenation of the most recent
    lobby list reported by each currently registered worker, sorted
    ascending by [startsAt], and the coordinator holds no lobby list for an
    identity that is not registered. *)
Theorem aggregate_of_registered_workers (h : list Event) :
  registers_without_report h → no_stale_report h → aggregate_as_specified h.
Proof.
  intros Hunreg Hfresh. pose proof (NoDup_workerLobbies_after h) as Hnd.
  pose proof (workerLobbies_after h Hunreg Hfresh) as Hget.
  unfold aggregate_as_specified. split_and!.
  - unfold getAllLobbies, spec_reports.
    rewrite (Array_sort_Permutation startsAt).
    apply concat_Permutation.
    apply JSMapFacts.values_Permutation_omap;
      [done|apply NoDup_spec_workers|].
    intros k. rewrite Hget.
    destruct (decide (k ∈ spec_workers h)) as [Hin|Hout]; [done|].
    destruct (spec_latest_report h k) eqn:Hrep; [|done].
    exfalso. apply Hout, spec_workers_registered.
    apply spec_latest_report_registered. by rewrite Hrep.
  - apply (Array_sort_StronglySorted startsAt).
  - intros k Hreg. rewrite Hget.
    destruct (spec_latest_report h k) eqn:Hrep; [|done].
    assert (is_Some (spec_registered h k)) as [w Hw].
    { apply spec_latest_report_registered. by rewrite Hrep. }
    congruence.
Qed.
End aggregate.

Lemma aggregate_of_registered_workers_witness :
  @registers_without_report spec_schemas history_reported
  ∧ @no_stale_report spec_schemas history_reported
  ∧ @aggregate_as_specified spec_schemas two_workers history_reported
  ∧ @getAllLobbies (@state_after spec_schemas two_workers history_reported)
    = [lobby_AbCdEfGh].
Proof.
  assert (Hreg : @registers_without_report spec_schemas history_reported).
  { cbn. split_and!; reflexivity || exact I. }
  assert (Hfresh : @no_stale_report spec_schemas history_reported).
  { cbn [no_stale_report history_reported history_running].
    split; [|split; [|split; [|exact I]]]; intros lobbies _ k Hin;
      unfold worker_a, worker_b in *; simpl in Hin;
      repeat (destruct Hin as [Hin|Hin]; [by simplify_eq|]); destruct Hin. }
  split_and!; [exact Hreg|exact Hfresh| |reflexivity].
  exact (@aggregate_of_registered_workers spec_schemas two_workers
           history_reported Hreg Hfresh).
Defined.

(** C1 as stated fails: a [lobbyList] that arrives on the object of worker 0
    after [removeWorker(0)] is stored by the listener that is still attached
    to it, and the aggregate then shows a lobby of a worker that is not
    registered. *)
Lemma stale_report_enters_aggregate :
  ¬ @aggregate_as_specified spec_schemas two_workers history_stale.
Proof.
  intros (_ & _ & Hnone). specialize (Hnone 0 eq_refl).
  vm_compute in Hnone. discriminate Hnone.
Qed.

(** It also fails without any stale message: when worker 0 is registered
    again without [removeWorker(0)], the list of the replaced object stays,
    and the aggregate shows a lobby that the registered worker has not
    reported. *)
Example replaced_worker_report_stays_in_aggregate :
  @registers_without_report spec_schemas history_reported
  ∧ @no_stale_report spec_schemas history_replaced
  ∧ @getAllLobbies (@state_after spec_schemas two_workers history_replaced)
    = [lobby_AbCdEfGh]
  ∧ @spec_reports spec_schemas history_replaced = []
  ∧ ¬ @aggregate_as_specified spec_schemas two_workers history_replaced.
Proof.
  split_and!; [cbn; split_and!; reflexivity || exact I| |reflexivity..|].
  - cbn [no_stale_report history_replaced history_reported history_running].
    split; [|split; [|split; [|exact I]]]; intros lobbies _ k Hin;
      unfold worker_a, worker_b in *; simpl in Hin;
      repeat (destruct Hin as [Hin|Hin]; [by simplify_eq|]); destruct Hin.
  - intros (Hperm & _). apply Permutation_length in Hperm.
    vm_compute in Hperm. discriminate Hperm.
Qed.

(** ** The scheduling tick *)

Section scheduling.
Context `{CoreSchemas} `{ServerConfig}.

(** The [reduce] of [maybeScheduleLobby] computes the maximum of [now]
    and the start times. *)
Lemma lastStart_is_max (lobbies : list PublicGameInfo) (now : Z) :
  let lastStart := foldl (λ max pb, Z.max max (startsAt pb)) now lobbies in
  now ≤ lastStart
  ∧ Forall (λ pb, startsAt pb ≤ lastStart) lobbies
  ∧ (lastStart = now ∨ ∃ pb, pb ∈ lobbies ∧ lastStart = startsAt pb).
Proof.
  revert now. induction lobbies as [|pb lobbies IH]; intros now; simpl.
  - split_and!; [lia|constructor|by left].
  - destruct (IH (Z.max now (startsAt pb))) as (Hnow & Hall & Hwhich).
    split_and!; [lia| |].
    + constructor; [lia|done].
    + destruct Hwhich as [Hmax|(pb' & Hin & Heq)].
      * destruct (Z.max_spec now (startsAt pb)) as [[_ Hm]|[_ Hm]].
        -- right. exists pb. split; [left|congruence].
        -- left. congruence.
      * right. exists pb'. split; [by right|done].
Qed.

Lemma createGame_count_resume p gameConfig s :
  createGame_count (Returned (maybeScheduleLobby_resume p gameConfig s))
  = match JSMap.get (pending_workerId p) (workers s) with
    | Some _ => 1%nat
    | None => 0%nat
    end.
Proof.
  unfold maybeScheduleLobby_resume.
  by destruct (JSMap.get (pending_workerId p) (workers s)).
Qed.

(** C2 (as amended). A scheduling tick sends at most one [createGame]
    command. While the aggregate holds fewer than two lobbies it sends
    exactly one when the playlist delivers a configuration and the worker
    at [workerIndex] of the new id is registered when the tick resumes,
    and none otherwise; with two or more lobbies it sends none. *)
Theorem scheduling_tick_sends (now : Z) (generated : GameID)
    (playlist : option GameConfig) (s s' : MasterLobbyService) :
  createGame_count (maybeScheduleLobby now generated playlist s s')
  = (if decide (2 ≤ length (getAllLobbies s))%nat then 0%nat
     else match playlist,
                JSMap.get (workerIndex generated) (workers s') with
          | Some _, Some _ => 1%nat
          | _, _ => 0%nat
          end)
  ∧ (createGame_count (maybeScheduleLobby now generated playlist s s')
     ≤ 1)%nat.
Proof.
  assert (Heq : createGame_count
                  (maybeScheduleLobby now generated playlist s s')
                = if decide (2 ≤ length (getAllLobbies s))%nat then 0%nat
                  else match playlist,
                             JSMap.get (workerIndex generated) (workers s')
                       with
                       | Some _, Some _ => 1%nat
                       | _, _ => 0%nat
                       end).
  { unfold maybeScheduleLobby, maybeScheduleLobby_begin.
    destruct (decide (2 ≤ Z.of_nat (length (getAllLobbies s)))) as [Hge|Hlt].
    - by rewrite decide_True by lia.
    - rewrite decide_False by lia.
      destruct playlist as [gameConfig|]; [|done].
      rewrite createGame_count_resume. simpl.
      by destruct (JSMap.get (workerIndex generated) (workers s')). }
  split; [exact Heq|]. rewrite Heq.
  destruct (decide _); [lia|].
  destruct playlist, (JSMap.get (workerIndex generated) (workers s')); lia.
Qed.

(** C6. When a tick creates a lobby, the one command it sends goes to the
    worker registered at [workerIndex] of the generated id, which is the
    hash of the id modulo the number of workers; the command carries the
    generated id, the configuration from the playlist and, as [startsAt],
    the maximum of the current time and the start times of all lobbies of
    the aggregate, plus [gameCreationRate]. *)
Theorem scheduled_lobby (now : Z) (generated : GameID)
    (gameConfig : GameConfig) (s s' : MasterLobbyService) (worker : Worker) :
  (length (getAllLobbies s) < 2)%nat →
  JSMap.get (workerIndex generated) (workers s') = Some worker →
  ∃ lastStart,
    maybeScheduleLobby now generated (Some gameConfig) s s'
    = Returned
        [WorkerSend worker
           (MasterCreateGame generated gameConfig
              (lastStart + gameCreationRate));
         Log (Info_ScheduledPublicGame generated (workerIndex generated))]
    ∧ now ≤ lastStart
    ∧ Forall (λ pb, startsAt pb ≤ lastStart) (getAllLobbies s)
    ∧ (lastStart = now
       ∨ ∃ pb, pb ∈ getAllLobbies s ∧ lastStart = startsAt pb)
    ∧ workerIndex generated = simpleHash generated `mod` numWorkers.
Proof.
  intros Hfew Hworker.
  exists (foldl (λ max pb, Z.max max (startsAt pb)) now (getAllLobbies s)).
  destruct (lastStart_is_max (getAllLobbies s) now) as (Hnow & Hall & Hwhich).
  split_and!; [|done..].
  unfold maybeScheduleLobby, maybeScheduleLobby_begin.
  rewrite decide_False by lia.
  unfold maybeScheduleLobby_resume. simpl. by rewrite Hworker.
Qed.

Lemma spec_registered_app_keeps rest h k :
  Forall (keeps_registration k) rest →
  spec_registered (rest ++ h) k = spec_registered h k.
Proof.
  induction 1 as [|[k' w'|k'|w' raw] rest Hkeep _ IH]; simpl in *; [done|..].
  - by rewrite decide_False.
  - by rewrite decide_False.
  - done.
Qed.

(** A lobby list held for [k] after more events was held before them or
    has been reported by one of them. *)
Lemma workerLobbies_reported_since rest h k lobbies :
  JSMap.get k (workerLobbies (state_after (rest ++ h))) = Some lobbies →
  JSMap.get k (workerLobbies (state_after h)) = Some lobbies
  ∨ ∃ w raw, In (Message w raw) rest
             ∧ WorkerMessageSchema_safeParse raw
               = Some (WorkerLobbyList lobbies).
Proof.
  induction rest as [|e rest IH]; [by left|].
  rewrite <- app_comm_cons, state_after_cons.
  destruct e as [k' w'|k'|w' raw]; simpl.
  - intros [?|(w & raw & ? & ?)]%IH; [by left|]. right. eauto.
  - rewrite JSMapFacts.get_delete. destruct (decide (k' = k)); [done|].
    intros [?|(w & raw & ? & ?)]%IH; [by left|]. right. eauto.
  - rewrite emit_workerLobbies.
    destruct (WorkerMessageSchema_safeParse raw) as [[reported|id]|] eqn:Hp.
    + rewrite get_foldl_set. destruct (decide _).
      * intros [= ->]. right. eauto.
      * intros [?|(w & raw' & ? & ?)]%IH; [by left|]. right. eauto.
    + intros [?|(w & raw' & ? & ?)]%IH; [by left|]. right. eauto.
    + intros [?|(w & raw' & ? & ?)]%IH; [by left|]. right. eauto.
Qed.

(** What the coordinator holds for [k] after a recovery: the last report
    of the new handle, provided no report arrives on an old handle of
    [k]. *)
Lemma workerLobbies_since_recovery h rest k w' :
  Forall (keeps_registration k) rest →
  no_report_on_old_handle k w' h rest →
  JSMap.get k (workerLobbies
                 (state_after
                    (rest ++ RegisterWorker k w' :: RemoveWorker k :: h)))
  = last_report_of w' rest.
Proof.
  induction rest as [|e rest IH]; intros Hkeep Hold.
  { cbn [app last_report_of]. rewrite !state_after_cons. simpl.
    rewrite JSMapFacts.get_delete. by rewrite decide_True. }
  apply Forall_cons in Hkeep as [He Hkeep].
  assert (Hold' : no_report_on_old_handle k w' h rest).
  { intros w raw lobbies Hin. apply (Hold w raw lobbies). by right. }
  specialize (IH Hkeep Hold').
  rewrite <- app_comm_cons, state_after_cons.
  destruct e as [k0 w0|k0|w0 raw]; simpl in *.
  - exact IH.
  - rewrite JSMapFacts.get_delete. by rewrite decide_False.
  - rewrite emit_workerLobbies.
    destruct (WorkerMessageSchema_safeParse raw) as [[lobbies|id]|] eqn:Hp;
      [|exact IH..].
    rewrite get_foldl_set, IH.
    destruct (decide (w0 = w')) as [->|Hne].
    + rewrite decide_True; [done|]. apply elem_of_listeners_of.
      apply in_or_app. right. by left.
    + rewrite decide_False; [done|].
      intros [Hin|[Hin|[Hin|Hin]]]%elem_of_listeners_of%in_app_or.
      * apply list_elem_of_In in Hin.
        rewrite Forall_forall in Hkeep. by apply Hkeep in Hin.
      * by injection Hin as ->.
      * discriminate Hin.
      * apply Hne. apply (Hold w0 raw lobbies); [by left|done..].
Qed.

(** C7 (as amended). After [removeWorker(k)] and [registerWorker(k, w')],
    and for as long as the registration of [k] is left alone, [w'] is the
    handle of [k]: a scheduling tick that creates a lobby for an id
    hashing to [k] sends its one command to [w'], no command for such an
    id goes anywhere else, and [w'] is sent every broadcast. Provided no
    [lobbyList] arrives on an object that was registered under [k] before,
    what the coordinator holds for [k] is what [w'] has reported since
    (nothing, right after the recovery), and the aggregate is made of that
    and of the lists of the other identities. *)
Theorem reregistration_routes_to_new_handle
    (h rest : list Event) (k : Z) (w' : Worker) :
  Forall (keeps_registration k) rest →
  let s := state_after (rest ++ RegisterWorker k w' :: RemoveWorker k :: h) in
  JSMap.get k (workers s) = Some w'
  ∧ (∀ now generated gameConfig s0,
       workerIndex generated = k → (length (getAllLobbies s0) < 2)%nat →
       maybeScheduleLobby now generated (Some gameConfig) s0 s
       = Returned
           [WorkerSend w'
              (MasterCreateGame generated gameConfig
                 (foldl (λ max pb, Z.max max (startsAt pb)) now
                        (getAllLobbies s0) + gameCreationRate));
            Log (Info_ScheduledPublicGame generated k)])
  ∧ (∀ now generated playlist s0 es w msg,
       workerIndex generated = k →
       maybeScheduleLobby now generated playlist s0 s = Returned es →
       WorkerSend w msg ∈ es → w = w')
  ∧ (∀ now,
       WorkerSend w'
         (MasterLobbiesBroadcast
            {| serverTime := now; games := getAllLobbies s |})
       ∈ broadcastLobbies now s)
  ∧ (no_report_on_old_handle k w' h rest →
     recovery_as_specified h rest k w'
     ∧ getAllLobbies s
       ≡ₚ concat (JSMap.values (JSMap.delete k (workerLobbies s)))
          ++ default [] (last_report_of w' rest)).
Proof.
  intros Hkeep s.
  assert (Hnew : JSMap.get k (workers s) = Some w').
  { unfold s. rewrite workers_after, spec_registered_app_keeps by done.
    simpl. by rewrite decide_True. }
  split_and!; [done| | | |].
  - intros now generated gameConfig s0 Hk Hfew.
    unfold maybeScheduleLobby, maybeScheduleLobby_begin.
    rewrite decide_False by lia.
    unfold maybeScheduleLobby_resume. simpl. by rewrite Hk, Hnew.
  - intros now generated playlist s0 es w msg Hk.
    unfold maybeScheduleLobby.
    destruct (maybeScheduleLobby_begin now generated s0) as [p|] eqn:Hp.
    + destruct playlist as [gameConfig|]; [|done]. intros [= <-].
      unfold maybeScheduleLobby_begin in Hp.
      destruct (decide _); [done|]. injection Hp as <-.
      unfold maybeScheduleLobby_resume. simpl. rewrite Hk, Hnew.
      rewrite elem_of_cons, list_elem_of_singleton.
      by intros [[= -> _]|?].
    + intros [= <-]. by intros ?%elem_of_nil.
  - intros now. apply broadcastLobbies_sends_aggregate. exists w'.
    split; [|done]. by apply (JSMapFacts.get_Some_values _ k).
  - intros Hold.
    pose proof (workerLobbies_since_recovery h rest k w' Hkeep Hold) as Hheld.
    fold s in Hheld. split; [by split|].
    unfold getAllLobbies. rewrite (Array_sort_Permutation startsAt).
    destruct (last_report_of w' rest) as [lobbies|]; simpl.
    + rewrite (concat_Permutation _ (lobbies :: JSMap.values
                 (JSMap.delete k (workerLobbies s)))).
      * simpl. apply Permutation_app_comm.
      * apply JSMapFacts.values_delete_Permutation; [|done].
        apply NoDup_workerLobbies_after.
    + rewrite app_nil_r, JSMapFacts.delete_not_key; [done|].
      by apply JSMapFacts.get_None_not_key.
Qed.
End scheduling.

Lemma scheduled_lobby_witness :
  let s := @state_after spec_schemas two_workers history_running in
  (length (getAllLobbies s) < 2)%nat
  ∧ JSMap.get (@workerIndex two_workers "abc") (workers s) = Some worker_b
  ∧ ∃ lastStart,
      @maybeScheduleLobby two_workers 1000 "abc" (Some JNull) s s
      = Returned
          [WorkerSend worker_b (MasterCreateGame "abc" JNull (lastStart + 60000));
           Log (Info_ScheduledPublicGame "abc" 1)]
      ∧ 1000 ≤ lastStart.
Proof.
  intros s.
  assert (Hfew : (length (getAllLobbies s) < 2)%nat) by (vm_compute; lia).
  assert (Hworker : JSMap.get (@workerIndex two_workers "abc") (workers s)
                    = Some worker_b) by reflexivity.
  split_and!; [exact Hfew|exact Hworker|].
  destruct (@scheduled_lobby two_workers 1000 "abc" JNull s s worker_b
              Hfew Hworker) as (lastStart & Hsend & Hnow & _).
  exists lastStart. split; [exact Hsend|exact Hnow].
Defined.

(** C2 as stated fails: both workers have signalled readiness, worker 1 has
    been removed, the aggregate is empty and the playlist delivers a
    configuration, but the id "abc" is assigned to worker 1, which is not
    registered: the tick logs that and sends nothing. *)
Lemma tick_drops_command_for_missing_worker :
  ¬ @threshold_as_specified spec_schemas two_workers 1000 "abc" (Some JNull)
      (@state_after spec_schemas two_workers
         (RemoveWorker 1 :: history_running)).
Proof.
  intros [Hone _].
  assert (Hfew : (length (getAllLobbies
                            (@state_after spec_schemas two_workers
                               (RemoveWorker 1 :: history_running))) < 2)%nat)
    by (vm_compute; lia).
  apply Hone in Hfew. vm_compute in Hfew. discriminate Hfew.
Qed.

Lemma reregistration_routes_to_new_handle_witness :
  let rest := [Message worker_a' report_one_lobby] in
  let s := @state_after spec_schemas two_workers
             (rest ++ RegisterWorker 0 worker_a' :: RemoveWorker 0
                   :: history_reported) in
  Forall (keeps_registration 0) rest
  ∧ @no_report_on_old_handle spec_schemas 0 worker_a' history_reported rest
  ∧ @maybeScheduleLobby two_workers 1000 "ab" (Some JNull) s s
    = Returned
        [WorkerSend worker_a' (MasterCreateGame "ab" JNull 150000);
         Log (Info_ScheduledPublicGame "ab" 0)]
  ∧ JSMap.get 0 (workerLobbies s) = Some [lobby_AbCdEfGh].
Proof.
  intros rest s.
  assert (Hkeep : Forall (keeps_registration 0) rest)
    by (repeat constructor).
  assert (Hold : @no_report_on_old_handle spec_schemas 0 worker_a'
                   history_reported rest).
  { intros w raw lobbies [[= <- _]|[]] _ _. reflexivity. }
  destruct (@reregistration_routes_to_new_handle spec_schemas two_workers
              history_reported rest 0 worker_a' Hkeep)
    as (_ & Htick & _ & _ & Hheld).
  split_and!; [exact Hkeep|exact Hold| |].
  - apply (Htick 1000 "ab" JNull s); [reflexivity|]. vm_compute. lia.
  - exact (proj2 (proj1 (Hheld Hold))).
Defined.

(** C7 as stated fails: after the recovery of worker 0 a [lobbyList]
    arrives on the object of the old worker, whose listener is still
    attached; it is stored under the identity 0, and the aggregate of the
    next broadcast shows the lobby of the old worker, although the new
    worker has reported nothing. *)
Lemma old_handle_report_returns_after_recovery :
  let rest := [Message worker_a report_one_lobby] in
  let s := @state_after spec_schemas two_workers
             (rest ++ RegisterWorker 0 worker_a' :: RemoveWorker 0
                   :: history_reported) in
  Forall (keeps_registration 0) rest
  ∧ JSMap.get 0 (workers s) = Some worker_a'
  ∧ @last_report_of spec_schemas worker_a' rest = None
  ∧ getAllLobbies s = [lobby_AbCdEfGh]
  ∧ ¬ @recovery_as_specified spec_schemas two_workers history_reported rest
        0 worker_a'.
Proof.
  intros rest s.
  split_and!; [repeat constructor|reflexivity..|].
  intros [_ Hheld]. vm_compute in Hheld. discriminate Hheld.
Qed.

(** ** Readiness gating *)

Section readiness.
Context `{CoreSchemas} `{ServerConfig}.
Implicit Types (s : MasterLobbyService) (h : list Event) (k id : Z).

Lemma polling_starts_app task es1 es2 :
  polling_starts task (es1 ++ es2)
  = (polling_starts task es1 + polling_starts task es2)%nat.
Proof. unfold polling_starts. by rewrite filter_app, length_app. Qed.

Lemma handleWorkerReady_ready id s :
  readyWorkers (handleWorkerReady id s).1 = {[id]} ∪ readyWorkers s
  ∧ started (handleWorkerReady id s).1 = started s || fills id s
  ∧ ∀ task, polling_starts task (handleWorkerReady id s).2
            = if fills id s && negb (started s) then 1%nat else 0%nat.
Proof.
  unfold handleWorkerReady, fills.
  destruct (bool_decide _), (started s); simpl;
    (split_and!; [done..|by intros []]).
Qed.

Lemma emit_not_ready ids raw s :
  (∀ id, WorkerMessageSchema_safeParse raw ≠ Some (WorkerReady id)) →
  readyWorkers (emit ids raw s).1 = readyWorkers s
  ∧ started (emit ids raw s).1 = started s
  ∧ ∀ task, polling_starts task (emit ids raw s).2 = 0%nat.
Proof.
  intros Hother. revert s.
  induction ids as [|workerId ids IH]; intros s; simpl; [done|].
  destruct (onMessage workerId raw s) as [s1 e1] eqn:E1.
  destruct (IH s1) as (IHr & IHs & IHp).
  destruct (emit ids raw s1) as [s2 e2]. simpl in *.
  unfold onMessage in E1.
  destruct (WorkerMessageSchema_safeParse raw) as [[lobbies|id]|];
    [|by destruct (Hother id)|]; simplify_eq; simpl in *.
  - split_and!; [done..|]. intros task. by rewrite IHp.
  - split_and!; [done..|]. intros task. rewrite <- (IHp task).
    unfold polling_starts. by rewrite filter_cons_False.
Qed.

Lemma emit_ready ids raw s id :
  WorkerMessageSchema_safeParse raw = Some (WorkerReady id) →
  ids ≠ [] →
  readyWorkers (emit ids raw s).1 = {[id]} ∪ readyWorkers s
  ∧ started (emit ids raw s).1 = started s || fills id s
  ∧ ∀ task, polling_starts task (emit ids raw s).2
            = if fills id s && negb (started s) then 1%nat else 0%nat.
Proof.
  intros Hready. revert s.
  induction ids as [|workerId ids IH]; intros s Hne; [done|]. simpl.
  destruct (onMessage workerId raw s) as [s1 e1] eqn:E1.
  unfold onMessage in E1. rewrite Hready in E1.
  destruct (handleWorkerReady_ready id s) as (Hr & Hs & Hp).
  rewrite E1 in Hr, Hs, Hp. simpl in Hr, Hs, Hp.
  destruct ids as [|workerId' ids].
  { simpl. split_and!; [done..|]. intros task.
    by rewrite app_nil_r. }
  destruct (IH s1 ltac:(done)) as (IHr & IHs & IHp).
  destruct (emit (workerId' :: ids) raw s1) as [s2 e2]. simpl in *.
  assert (Hidem : {[id]} ∪ ({[id]} ∪ readyWorkers s)
                  = {[id]} ∪ readyWorkers s) by set_solver.
  assert (Hsame : fills id s1 = fills id s).
  { unfold fills. by rewrite Hr, Hidem. }
  rewrite Hsame in IHs, IHp. split_and!.
  - by rewrite IHr, Hr.
  - rewrite IHs, Hs. by destruct (started s), (fills id s).
  - intros task. rewrite polling_starts_app, Hp, IHp, Hs.
    by destruct (started s), (fills id s).
Qed.

Lemma attached_listeners_of w h :
  attached w h = true ↔ listeners_of w (state_after h) ≠ [].
Proof.
  transitivity (∃ k, In (RegisterWorker k w) h).
  - induction h as [|[k' w'|k'|w' raw] h IH]; simpl.
    + split; [done|by intros [? []]].
    + rewrite orb_true_iff, bool_decide_eq_true, IH. split.
      * intros [->|[k Hk]]; eauto.
      * intros [k [[= _ ->]|Hk]]; eauto.
    + rewrite IH. split; intros [k Hk]; [eauto|].
      destruct Hk as [?|?]; [done|eauto].
    + rewrite IH. split; intros [k Hk]; [eauto|].
      destruct Hk as [?|?]; [done|eauto].
  - split.
    + intros [k Hk%elem_of_listeners_of] Hnil. rewrite Hnil in Hk.
      by apply elem_of_nil in Hk.
    + destruct (listeners_of w (state_after h)) as [|k ks] eqn:Hl; [done|].
      intros _. exists k. apply elem_of_listeners_of. rewrite Hl. left.
Qed.

(** What a step does to the ready-set, the flag and the loops. *)
Lemma step_ready e h :
  let s := state_after h in
  let s' := state_after (e :: h) in
  let more := (step e s).2 in
  match e with
  | RegisterWorker _ _ =>
      readyWorkers s' = readyWorkers s ∧ started s' = started s
      ∧ ∀ task, polling_starts task more = 0%nat
  | RemoveWorker k =>
      readyWorkers s' = readyWorkers s ∖ {[k]} ∧ started s' = started s
      ∧ ∀ task, polling_starts task more = 0%nat
  | Message w raw =>
      match WorkerMessageSchema_safeParse raw, attached w h with
      | Some (WorkerReady id), true =>
          readyWorkers s' = {[id]} ∪ readyWorkers s
          ∧ started s' = started s || fills id s
          ∧ ∀ task, polling_starts task more
                    = if fills id s && negb (started s) then 1%nat
                      else 0%nat
      | _, _ =>
          readyWorkers s' = readyWorkers s ∧ started s' = started s
          ∧ ∀ task, polling_starts task more = 0%nat
      end
  end.
Proof.
  intros s s' more. unfold s', more, s. rewrite state_after_cons.
  destruct e as [k' w'|k'|w' raw]; simpl; [done..|].
  destruct (WorkerMessageSchema_safeParse raw) as [[lobbies|id]|] eqn:Hp.
  - apply emit_not_ready. by rewrite Hp.
  - destruct (attached w' h) eqn:Ha.
    + apply emit_ready; [done|]. by apply attached_listeners_of.
    + assert (Hnil : listeners_of w' (state_after h) = []).
      { destruct (listeners_of w' (state_after h)) eqn:Hl; [done|].
        assert (attached w' h = true); [|congruence].
        apply attached_listeners_of. by rewrite Hl. }
      by rewrite Hnil.
  - apply emit_not_ready. by rewrite Hp.
Qed.
End readiness.

Section readiness_gating.
Context `{CoreSchemas} `{ServerConfig}.
Implicit Types (s : MasterLobbyService) (h : list Event) (k id : Z).









(** Each loop has been started once if the flag is set, and not at all
    otherwise. *)
Lemma starts_counted h task :
  polling_starts task (effects_of h)
  = if started (state_after h) then 1%nat else 0%nat.
Proof.
  induction h as [|e h IH]; [done|].
  pose proof (step_ready e h) as Hstep. simpl in Hstep.
  rewrite effects_of_cons, polling_starts_app, IH.
  assert (Hkeep : started (state_after (e :: h)) = started (state_after h)
                  ∧ (∀ task, polling_starts task
                               (step e (state_after h)).2 = 0%nat) →
                  ((if started (state_after h) then 1 else 0)
                   + polling_starts task (step e (state_after h)).2
                   = if started (state_after (e :: h)) then 1 else 0)%nat).
  { intros [-> ->]. lia. }
  destruct e as [k' w'|k'|w' raw].
  - apply Hkeep. by destruct Hstep as (_ & ? & ?).
  - apply Hkeep. by destruct Hstep as (_ & ? & ?).
  - destruct (WorkerMessageSchema_safeParse raw) as [[lobbies|id]|];
      [| destruct (attached w' h) |];
      try (apply Hkeep; by destruct Hstep as (_ & ? & ?)).
    destruct Hstep as (_ & -> & ->).
    by destruct (started (state_after h)), (fills id (state_after h)).
Qed.




End readiness_gating.



(** Nor do [numWorkers] distinct ready signals suffice: a [removeWorker]
    takes the removed identity out of the ready-set, and the signal of
    worker 0, removed and replaced before worker 1 signals, is forgotten;
    the loops are not started. *)
Example removal_forgets_ready_signal :
  started (@state_after spec_schemas two_workers history_removed_between)
  = false
  ∧ ¬ @gating_as_specified spec_schemas two_workers history_removed_between.
Proof.
  split; [reflexivity|]. intros [_ Hdistinct].
  assert (Hstarted : polling_starts BroadcastLobbies
            (@effects_of spec_schemas two_workers history_removed_between)
          = 1%nat); [|vm_compute in Hstarted; discriminate Hstarted].
  apply Hdistinct. exists [0; 1]. split_and!.
  - apply NoDup_cons. split; [|apply NoDup_singleton].
    by intros [=]%list_elem_of_singleton.
  - reflexivity.
  - intros k [->|[->|[]%elem_of_nil]%elem_of_cons]%elem_of_cons; cbn.
    + right. left. done.
    + left. done.
Qed.

(** ** Re-registration without removal *)

(** C10. [registerWorker(id, handle)] for an identity that is already
    registered replaces the stored handle and nothing else: the other
    registrations, the lobby list last reported for the identity, the
    ready-set, the flag and hence the aggregate are unchanged (the listener
    of the old handle stays attached next to the new one). The stale list
    and readiness are gone only if [removeWorker(id)] is called first. *)
Theorem reregistration_keeps_stale_state
    (workerId : Z) (old worker : Worker) (s : MasterLobbyService) :
  JSMap.get workerId (workers s) = Some old →
  let s' := registerWorker workerId worker s in
  JSMap.get workerId (workers s') = Some worker
  ∧ (∀ k, k ≠ workerId → JSMap.get k (workers s') = JSMap.get k (workers s))
  ∧ JSMap.keys (workers s') = JSMap.keys (workers s)
  ∧ workerLobbies s' = workerLobbies s
  ∧ readyWorkers s' = readyWorkers s
  ∧ started s' = started s
  ∧ getAllLobbies s' = getAllLobbies s
  ∧ listeners s' = listeners s ++ [(worker, workerId)]
  ∧ JSMap.get workerId
      (workerLobbies (registerWorker workerId worker (removeWorker workerId s)))
    = None
  ∧ workerId
    ∉ readyWorkers (registerWorker workerId worker (removeWorker workerId s)).
Proof.
  intros Hold s'. unfold s'. simpl. split_and!; try done.
  - rewrite JSMapFacts.get_set. by rewrite decide_True.
  - intros k Hk. rewrite JSMapFacts.get_set. by rewrite decide_False.
  - rewrite JSMapFacts.keys_set. rewrite decide_True; [done|].
    destruct (decide (workerId ∈ JSMap.keys (workers s))) as [|Hout]; [done|].
    apply JSMapFacts.get_None_not_key in Hout. congruence.
  - rewrite JSMapFacts.get_delete. by rewrite decide_True.
  - set_solver.
Qed.

Lemma reregistration_keeps_stale_state_witness :
  let s := @state_after spec_schemas two_workers history_reported in
  JSMap.get 0 (workers s) = Some worker_a
  ∧ JSMap.get 0 (workerLobbies (registerWorker 0 worker_a' s))
    = Some [lobby_AbCdEfGh]
  ∧ getAllLobbies (registerWorker 0 worker_a' s) = [lobby_AbCdEfGh].
Proof.
  intros s.
  assert (Hold : JSMap.get 0 (workers s) = Some worker_a) by reflexivity.
  destruct (reregistration_keeps_stale_state 0 worker_a worker_a' s Hold)
    as (_ & _ & _ & Hlobbies & _ & _ & Hall & _).
  split_and!; [exact Hold| |].
  - rewrite Hlobbies. reflexivity.
  - rewrite Hall. reflexivity.
Defined.

(** ** The worker's IPC listener *)

Section worker_facts.
Context `{CoreSchemas}.

Lemma lobbies_with_id_get (id : GameID) (games : GameManager) :
  NoDup (JSMap.keys games) →
  lobbies_with_id id games
  = match gm_game id games with Some _ => 1%nat | None => 0%nat end.
Proof.
  unfold lobbies_with_id, gm_game, JSMap.keys.
  induction games as [|[id' g] games IH]; [done|].
  rewrite fmap_cons. intros [Hnin Hnd]%NoDup_cons.
  cbn [JSMap.get fst]. destruct (decide (id' = id)) as [->|Hne].
  - rewrite filter_cons_True by done. cbn [length]. rewrite IH by done.
    assert (JSMap.get id games = None) as ->; [|done].
    by apply JSMapFacts.get_None_not_key.
  - rewrite filter_cons_False by done. by apply IH.
Qed.

(** C4. Delivering the same [createGame] message twice leaves the worker
    with exactly one lobby of that id: the listener first looks the id up;
    if a lobby exists it logs a warning and changes nothing, otherwise it
    creates the lobby, so that the second delivery finds it and is a
    no-op. *)
Theorem createGame_idempotent (raw : JSON) (gameID : GameID)
    (gameConfig : GameConfig) (startsAt : Z) (s : WorkerLobbyService) :
  MasterMessageSchema_safeParse raw
  = Some (MasterCreateGame gameID gameConfig startsAt) →
  NoDup (JSMap.keys (gm s)) →
  let first := onMasterMessage raw s in
  let second := onMasterMessage raw first.1 in
  second.1 = first.1
  ∧ second.2 = [WLog (Warn_GameAlreadyExists gameID)]
  ∧ lobbies_with_id gameID (gm second.1) = 1%nat
  ∧ match gm_game gameID (gm s) with
    | Some _ => first = (s, [WLog (Warn_GameAlreadyExists gameID)])
    | None =>
        first.2 = [WLog (Info_CreatingPublicGame gameID)]
        ∧ gm first.1
          = gm_createGame gameID gameConfig None (Some startsAt) (gm s)
        ∧ lobbyClients first.1 = lobbyClients s
    end.
Proof.
  intros Hparse Hnd first second.
  assert (Hexists : is_Some (gm_game gameID (gm first.1))
                    ∧ NoDup (JSMap.keys (gm first.1))).
  { unfold first, onMasterMessage. rewrite Hparse.
    destruct (gm_game gameID (gm s)) as [g|] eqn:Hg; simpl.
    - split; [by rewrite Hg|done].
    - split; [|by apply JSMapFacts.NoDup_keys_set].
      unfold gm_game, gm_createGame. rewrite JSMapFacts.get_set.
      by rewrite decide_True. }
  destruct Hexists as [[g Hg] Hnd1].
  assert (Hsecond : second = (first.1, [WLog (Warn_GameAlreadyExists gameID)])).
  { unfold second, onMasterMessage at 1. by rewrite Hparse, Hg. }
  rewrite Hsecond. simpl. split_and!; [done..| |].
  - by rewrite lobbies_with_id_get, Hg.
  - unfold first, onMasterMessage. rewrite Hparse.
    by destruct (gm_game gameID (gm s)).
Qed.

(** C8. On a [lobbiesBroadcast] the listener sends the JSON text of the
    received view, unchanged, to every viewer connection of its set that
    is open (and to nothing else; the connections that are not open are
    removed from the set), and then, in the same call, sends the master one
    [lobbyList] with one entry for each of its current public lobbies (the
    listed games of its lobby manager), in their order: the lobby's id, the number of its clients (0 when it has
    no client list), its start time and its configuration. The master's
    listener replaces the list held for the worker by the lobbies it
    parses from these entries, and logs and drops the message when one of
    them fails [PublicGameInfoSchema]. *)
Theorem broadcast_forwarded_and_answered `{ServerConfig}
    (raw : JSON) (publicGames : PublicGames) (s : WorkerLobbyService) :
  MasterMessageSchema_safeParse raw
  = Some (MasterLobbiesBroadcast publicGames) →
  process_send s = true →
  let '(s', effects) := onMasterMessage raw s in
  ∃ reports,
    let reply := JObj [("type", JStr "lobbyList"); ("lobbies", JArr reports)] in
    effects
    = ((λ c, ClientSend c publicGames)
         <$> filter (λ c, readyState c = OPEN) (lobbyClients s))
      ++ [ProcessSend reply]
    ∧ Forall2
        (λ g report,
           ∃ fields, report = JObj fields
             ∧ obj_get "gameID" fields = Some (JStr (gi_gameID (info g)))
             ∧ obj_get "numClients" fields
               = Some (JNum match gi_clients (info g) with
                            | Some clients => Z.of_nat (length clients)
                            | None => 0
                            end)
             ∧ obj_get "startsAt" fields = JNum <$> gi_startsAt (info g)
             ∧ obj_get "gameConfig" fields = Some (gi_gameConfig (info g)))
        (filter (λ g, listed g = true) (JSMap.values (gm s))) reports
    ∧ (∀ c, c ∈ lobbyClients s → readyState c = OPEN →
            ClientSend c publicGames ∈ effects)
    ∧ (∀ c sent, ClientSend c sent ∈ effects →
            c ∈ lobbyClients s ∧ readyState c = OPEN ∧ sent = publicGames)
    ∧ gm s' = gm s
    ∧ ∀ workerId m,
        onMessage workerId reply m
        = match mapM PublicGameInfoSchema reports with
          | Some lobbies =>
              ({| workers := workers m;
                  workerLobbies :=
                    JSMap.set workerId lobbies (workerLobbies m);
                  readyWorkers := readyWorkers m; started := started m;
                  listeners := listeners m |}, [])
          | None => (m, [Log (Error_InvalidIPCFromWorker reply)])
          end.
Proof.
  intros Hparse Hsend. unfold onMasterMessage. rewrite Hparse.
  unfold broadcastLobbiesToClients, sendMyLobbiesToMaster. cbn [fst snd gm
    process_send lobbyClients].
  rewrite Hsend. exists ((lobbySummary ∘ info) <$> gm_publicLobbies (gm s)).
  cbn zeta. split_and!; [done| | | |done|].
  - apply Forall2_fmap_r. unfold gm_publicLobbies.
    induction (filter _ (JSMap.values (gm s))) as [|g gs IH];
      constructor; [|done].
    eexists. split; [reflexivity|]. cbn.
    destruct (gi_clients (info g)), (gi_startsAt (info g)); done.
  - intros c Hin Hopen. apply elem_of_app. left.
    apply list_elem_of_fmap. exists c. split; [done|].
    by apply list_elem_of_filter.
  - intros c sent [Hin|Hin]%elem_of_app.
    + apply list_elem_of_fmap in Hin as (c' & [= -> ->] & Hc').
      by apply list_elem_of_filter in Hc' as [? ?].
    + by apply list_elem_of_singleton in Hin.
  - intros workerId m.
    unfold onMessage, WorkerMessageSchema_safeParse, WorkerLobbyListSchema.
    cbn [obj_get].
    rewrite !(decide_True (P := "type" = "type")) by done.
    rewrite (decide_True (P := "lobbyList" = "lobbyList")) by done.
    rewrite (decide_False (P := "type" = "lobbies")) by done.
    rewrite (decide_True (P := "lobbies" = "lobbies")) by done.
    by destruct (mapM PublicGameInfoSchema _).
Qed.

Lemma emit_invalid `{ServerConfig} ids raw (s : MasterLobbyService) :
  WorkerMessageSchema_safeParse raw = None →
  (emit ids raw s).1 = s
  ∧ Forall (λ e, e = Log (Error_InvalidIPCFromWorker raw)) (emit ids raw s).2.
Proof.
  intros Hparse. induction ids as [|workerId ids IH]; simpl; [done|].
  unfold onMessage. rewrite Hparse. destruct IH as [IHs IHe].
  destruct (emit ids raw s) as [s2 e2]. simpl in *.
  split; [done|]. by constructor.
Qed.

(** C5. A payload that fails the schema is logged and dropped by the
    master's listener and by the worker's listener alike: the handler
    returns after the one error log, and every field of the state (the
    three maps and the flag of the master; the viewer set and the lobbies
    of the worker) is left as it was. *)
Theorem invalid_payload_dropped `{ServerConfig} (raw : JSON) :
  (WorkerMessageSchema_safeParse raw = None →
   ∀ s : MasterLobbyService,
     (∀ workerId,
        onMessage workerId raw s
        = (s, [Log (Error_InvalidIPCFromWorker raw)]))
     ∧ ∀ worker,
         (step (Message worker raw) s).1 = s
         ∧ Forall (λ e, e = Log (Error_InvalidIPCFromWorker raw))
                  (step (Message worker raw) s).2)
  ∧ (MasterMessageSchema_safeParse raw = None →
     ∀ s : WorkerLobbyService,
       onMasterMessage raw s
       = (s, [WLog (Error_InvalidIPCFromMaster raw)])).
Proof.
  split.
  - intros Hparse s. split.
    + intros workerId. unfold onMessage. by rewrite Hparse.
    + intros worker. simpl. by apply emit_invalid.
  - intros Hparse s. unfold onMasterMessage. by rewrite Hparse.
Qed.
End worker_facts.

Lemma createGame_idempotent_witness :
  let first := @onMasterMessage spec_schemas create_message worker_service in
  let second := @onMasterMessage spec_schemas create_message first.1 in
  @MasterMessageSchema_safeParse spec_schemas create_message
  = Some (MasterCreateGame "ZyXwVuTs" (JObj []) 150000)
  ∧ NoDup (JSMap.keys (gm worker_service))
  ∧ second.1 = first.1
  ∧ lobbies_with_id "ZyXwVuTs" (gm second.1) = 1%nat.
Proof.
  intros first second.
  assert (Hparse : @MasterMessageSchema_safeParse spec_schemas create_message
                   = Some (MasterCreateGame "ZyXwVuTs" (JObj []) 150000))
    by reflexivity.
  assert (Hnd : NoDup (JSMap.keys (gm worker_service))).
  { apply NoDup_singleton. }
  destruct (@createGame_idempotent spec_schemas create_message "ZyXwVuTs"
              (JObj []) 150000 worker_service Hparse Hnd)
    as (Hsame & _ & Hone & _).
  split_and!; [exact Hparse|exact Hnd|exact Hsame|exact Hone].
Defined.

Lemma broadcast_forwarded_and_answered_witness :
  @MasterMessageSchema_safeParse spec_schemas broadcast_message
  = Some (MasterLobbiesBroadcast empty_view)
  ∧ process_send worker_service = true
  ∧ (@onMasterMessage spec_schemas broadcast_message worker_service).2
    = [ClientSend viewer_open empty_view;
       ProcessSend
         (JObj [("type", JStr "lobbyList");
                ("lobbies",
                 JArr [JObj [("gameID", JStr "AbCdEfGh");
                             ("numClients", JNum 0);
                             ("startsAt", JNum 90000);
                             ("gameConfig", JObj [])]])])]
  ∧ workerLobbies
      (@onMessage spec_schemas two_workers 0 report_one_lobby
         (@state_after spec_schemas two_workers history_running)).1
    = [(0, [lobby_AbCdEfGh])].
Proof.
  assert (Hparse : @MasterMessageSchema_safeParse spec_schemas broadcast_message
                   = Some (MasterLobbiesBroadcast empty_view)) by reflexivity.
  assert (Hsend : process_send worker_service = true) by reflexivity.
  split_and!; [exact Hparse|exact Hsend|reflexivity|].
  pose proof (@broadcast_forwarded_and_answered spec_schemas two_workers
                broadcast_message empty_view worker_service Hparse Hsend)
    as Hthm.
  destruct (@onMasterMessage spec_schemas broadcast_message worker_service)
    as [s' effects] eqn:Hrun.
  destruct Hthm as (reports & Heffects & _ & _ & _ & _ & Hmaster).
  injection Hrun as _ <-. cbn in Heffects. injection Heffects as <-.
  by rewrite (Hmaster 0 _).
Defined.

(** A public lobby that has no start time is reported without [startsAt],
    and the master's schema then rejects the whole report. *)
Example report_without_startsAt_is_rejected :
  @WorkerMessageSchema_safeParse spec_schemas
    (lobbyListMessage
       (gm_createGame "NoStart1" (JObj []) None None one_lobby)) = None.
Proof. reflexivity. Qed.

Lemma invalid_payload_dropped_witness :
  @WorkerMessageSchema_safeParse spec_schemas invalid_message = None
  ∧ @MasterMessageSchema_safeParse spec_schemas invalid_message = None
  ∧ @onMessage spec_schemas two_workers 0 invalid_message
      (@state_after spec_schemas two_workers history_reported)
    = (@state_after spec_schemas two_workers history_reported,
       [Log (Error_InvalidIPCFromWorker invalid_message)])
  ∧ @onMasterMessage spec_schemas invalid_message worker_service
    = (worker_service, [WLog (Error_InvalidIPCFromMaster invalid_message)]).
Proof.
  assert (Hw : @WorkerMessageSchema_safeParse spec_schemas invalid_message
               = None) by reflexivity.
  assert (Hm : @MasterMessageSchema_safeParse spec_schemas invalid_message
               = None) by reflexivity.
  destruct (@invalid_payload_dropped spec_schemas two_workers invalid_message)
    as [Hmaster Hworker].
  split_and!; [exact Hw|exact Hm| |].
  - exact (proj1 (Hmaster Hw _) 0).
  - exact (Hworker Hm worker_service).
Defined.

(** ** The supervisor *)

Section supervisor_facts.
Context `{ServerConfig}.

(** Every worker of the initial pool is forked with the two tokens that
    the exit handler later passes on. *)
Lemma fork_workers_tokens (ids : list Z) (m : MasterProcess) :
  admin_token (fork_workers ids m).1 = admin_token m
  ∧ instance_id (fork_workers ids m).1 = instance_id m
  ∧ ∀ env worker, In (Fork env worker) (fork_workers ids m).2 →
      ADMIN_TOKEN env = admin_token m ∧ INSTANCE_ID env = instance_id m.
Proof.
  revert m. induction ids as [|i ids IH]; intros m; simpl.
  - split_and!; [done..|]. by intros ?? [].
  - destruct (IH {| lobbyService := registerWorker i
                                      (cluster_fork
                                         {| WORKER_ID := EnvNum i;
                                            ADMIN_TOKEN := admin_token m;
                                            INSTANCE_ID := instance_id m |} m)
                                      (lobbyService m);
                    admin_token := admin_token m;
                    instance_id := instance_id m;
                    forked := S (forked m) |}) as (IHa & IHi & IHf).
    destruct (fork_workers ids _) as [m2 e2]. simpl in *.
    split_and!; [done..|].
    intros env worker [[= <- _]|[[=]|Hin]]; [done|]. by apply IHf in Hin.
Qed.

(** The fork loop registers every identity it is given, under an object
    from which no [WORKER_ID] can be read. *)
Lemma fork_workers_registers (ids : list Z) (m : MasterProcess) (k : Z) :
  k ∈ ids
  ∨ (∃ worker, JSMap.get k (workers (lobbyService m)) = Some worker
               ∧ process_env_WORKER_ID worker = None) →
  ∃ worker,
    JSMap.get k (workers (lobbyService (fork_workers ids m).1)) = Some worker
    ∧ process_env_WORKER_ID worker = None.
Proof.
  revert m. induction ids as [|i ids IH]; intros m; cbn [fork_workers].
  - intros [[]%elem_of_nil|?]. done.
  - intros Hk.
    destruct (fork_worker i m) as [m1 e1] eqn:Hfork.
    specialize (IH m1). destruct (fork_workers ids m1) as [m2 e2].
    cbn [fst] in *. apply IH. clear IH.
    unfold fork_worker in Hfork. injection Hfork as <- _. cbn.
    rewrite JSMapFacts.get_set.
    destruct (decide (i = k)) as [->|Hne]; [right; by eexists|].
    destruct Hk as [[?|?]%elem_of_cons|?]; [congruence|by left|by right].
Qed.

(** The restart code of the exit handler, when it is reached: the exit
    code and signal are logged, a replacement is forked with the
    [WORKER_ID] that was read and the two tokens, and it is registered in
    the place of the identity that [parseInt] returned. *)
Lemma restart_code_restarts (worker : Worker) (code : option Z)
    (signal : option string) (parsed : Z) (m : MasterProcess)
    (workerId : EnvValue) :
  process_env_WORKER_ID worker = Some workerId →
  restarted_with workerId worker code signal parsed m.
Proof.
  intros Hid. unfold restarted_with, onExit. rewrite Hid.
  eexists. split_and!; [by left|by right; right; left|done| |done..].
  simpl. rewrite JSMapFacts.get_set. by rewrite decide_True.
Qed.

(** C9. The claim fails on the code: no worker that [startMaster] has
    forked is restarted when it exits. Each identity 0 .. [numWorkers]-1
    is registered under an object that [cluster.fork] returned; no
    [WORKER_ID] can be read from such an object, so that on its exit,
    whatever the code, the signal and the state of the master process, the
    handler logs that it could not find the id and returns: the worker is
    not deregistered, no replacement is forked, nothing is registered. *)
Theorem forked_worker_exit_only_logs (adminToken instanceId : string) :
  Forall
    (λ k, ∃ worker,
       JSMap.get k (workers (lobbyService (startMaster adminToken instanceId).1))
       = Some worker
       ∧ ∀ code signal parsed m,
           onExit worker code signal parsed m
           = (m, [SLog Error_CouldNotFindId])
           ∧ ¬ restarted_as_specified worker code signal parsed m)
    (seqZ 0 numWorkers).
Proof.
  apply Forall_forall. intros k Hk.
  destruct (fork_workers_registers (seqZ 0 numWorkers)
              {| lobbyService := new_MasterLobbyService;
                 admin_token := adminToken; instance_id := instanceId;
                 forked := 0%nat |} k (or_introl Hk))
    as (worker & Hget & Hanon).
  exists worker. split; [exact Hget|]. intros code signal parsed m.
  assert (Hexit : onExit worker code signal parsed m
                  = (m, [SLog Error_CouldNotFindId])).
  { unfold onExit. by rewrite Hanon. }
  split; [exact Hexit|].
  intros (workerId & Hrestart). unfold restarted_with in Hrestart.
  rewrite Hexit in Hrestart. destruct Hrestart as (newWorker & _ & Hfork & _).
  destruct Hfork as [Hfork|[]]. discriminate Hfork.
Qed.
End supervisor_facts.

(** The exit of worker 0 of a master with two workers, with exit code 1:
    the master process is left as it was, worker 0 stays registered under
    the object of the process that has exited, and the only effect is the
    error log. *)
Example exit_of_worker_0_only_logs :
  JSMap.get 0 (workers (lobbyService master_started)) = Some worker_a
  ∧ onExit worker_a (Some 1) None 0 master_started
    = (master_started, [SLog Error_CouldNotFindId])
  ∧ ¬ restarted_as_specified worker_a (Some 1) None 0 master_started.
Proof.
  split_and!; [reflexivity..|].
  intros (workerId & Hrestart). unfold restarted_with in Hrestart.
  simpl in Hrestart. destruct Hrestart as (newWorker & _ & Hfork & _).
  destruct Hfork as [Hfork|[]]. discriminate Hfork.
Qed.

(** * Further properties of the code *)

(** ** The coordinator *)

Section coordinator_extras.
Context `{CoreSchemas} `{ServerConfig}.
Implicit Types (s : MasterLobbyService) (h : list Event) (k : Z).

Lemma started_step e h :
  started (state_after h) = true → started (state_after (e :: h)) = true.
Proof.
  intros Hs. pose proof (step_ready e h) as Hstep. simpl in Hstep.
  destruct e as [k' w'|k'|w' raw].
  - destruct Hstep as (_ & -> & _). done.
  - destruct Hstep as (_ & -> & _). done.
  - destruct (WorkerMessageSchema_safeParse raw) as [[lobbies|id]|];
      [| destruct (attached w' h) |];
      destruct Hstep as (_ & -> & _); by rewrite ?Hs.
Qed.

(** X1. Once the coordinator has started its loops it stays started
    whatever happens next (removals, re-registrations, further ready
    signals), and neither loop is ever started a second time. *)
Theorem started_is_permanent (h rest : list Event) :
  started (state_after h) = true →
  started (state_after (rest ++ h)) = true
  ∧ ∀ task, polling_starts task (effects_of (rest ++ h)) = 1%nat.
Proof.
  intros Hs.
  assert (Hlater : started (state_after (rest ++ h)) = true).
  { induction rest as [|e rest IH]; [done|].
    rewrite <- app_comm_cons. by apply started_step. }
  split; [done|]. intros task. by rewrite starts_counted, Hlater.
Qed.

(** X2. The aggregate is a stable sort of everything the coordinator holds:
    it contains each held lobby exactly once, ascending by [startsAt], and
    lobbies with the same [startsAt] keep the order of the lists they come
    from; hence its first element starts no later than any held lobby. *)
Theorem aggregate_is_stable_sort (s : MasterLobbyService) :
  let held := concat (JSMap.values (workerLobbies s)) in
  getAllLobbies s ≡ₚ held
  ∧ length (getAllLobbies s) = length held
  ∧ StronglySorted (λ a b, startsAt a ≤ startsAt b) (getAllLobbies s)
  ∧ (∀ t, filter (λ pb, startsAt pb = t) (getAllLobbies s)
          = filter (λ pb, startsAt pb = t) held)
  ∧ ∀ first others, getAllLobbies s = first :: others →
      ∀ pb, pb ∈ held → startsAt first ≤ startsAt pb.
Proof.
  intros held.
  assert (Hperm : getAllLobbies s ≡ₚ held)
    by apply (Array_sort_Permutation startsAt).
  assert (Hsorted : StronglySorted (λ a b, startsAt a ≤ startsAt b)
                                   (getAllLobbies s))
    by apply (Array_sort_StronglySorted startsAt).
  split_and!; [done|by rewrite Hperm|done| |].
  - intros t. apply (Array_sort_stable startsAt).
  - intros first others Heq pb Hpb. rewrite Heq in Hperm, Hsorted.
    rewrite <- Hperm in Hpb. apply StronglySorted_inv in Hsorted as [_ Hall].
    apply elem_of_cons in Hpb as [->|Hpb]; [lia|].
    by apply (proj1 (Forall_forall _ _) Hall).
Qed.

(** X3. With a positive [gameCreationRate] that is a safe integer, and
    when the current time and the start times of the aggregate are safe
    integers and stay so when [gameCreationRate] is added (so that the sum
    of the source is exact),
    the lobby that a tick schedules starts strictly after the current
    time and strictly after every lobby of the aggregate the tick has
    looked at, at a time that is a safe integer. *)
Theorem scheduled_lobby_starts_last (now : Z) (generated : GameID)
    (playlist : option GameConfig) (s s' : MasterLobbyService)
    (es : list MasterEffect) (w : Worker) (id : GameID) (cfg : GameConfig)
    (t : Z) :
  0 < gameCreationRate → Number_isSafeInteger gameCreationRate →
  Forall (λ x, Number_isSafeInteger x
               ∧ Number_isSafeInteger (x + gameCreationRate))
         (now :: (startsAt <$> getAllLobbies s)) →
  maybeScheduleLobby now generated playlist s s' = Returned es →
  WorkerSend w (MasterCreateGame id cfg t) ∈ es →
  now < t ∧ (∀ pb, pb ∈ getAllLobbies s → startsAt pb < t)
  ∧ Number_isSafeInteger t.
Proof.
  intros Hrate _ Hsafe. unfold maybeScheduleLobby, maybeScheduleLobby_begin.
  destruct (decide _) as [|Hfew].
  { intros [= <-]. by intros ?%elem_of_nil. }
  destruct playlist as [gameConfig|]; [|done]. intros [= <-].
  unfold maybeScheduleLobby_resume. simpl.
  destruct (JSMap.get _ _) as [worker|].
  - rewrite elem_of_cons, list_elem_of_singleton.
    intros [[= _ _ _ ->]|[=]].
    destruct (lastStart_is_max (getAllLobbies s) now)
      as (Hnow & Hall & Hwhich).
    split_and!; [lia| |].
    + intros pb Hpb.
      pose proof (proj1 (Forall_forall _ _) Hall pb Hpb) as Hle.
      simpl in Hle. lia.
    + rewrite Forall_forall in Hsafe.
      destruct Hwhich as [->|(pb & Hpb & ->)].
      * apply Hsafe. left.
      * apply Hsafe. right. by apply list_elem_of_fmap_2.
  - by intros [=]%list_elem_of_singleton.
Qed.

(** X4. A message only reaches the lobby lists of the identities under
    which its worker object was registered: the list held for any other
    identity is untouched, and a message on an object that was never
    registered changes nothing and produces no effect. *)
Theorem message_reaches_own_registrations (h : list Event) (w : Worker)
    (raw : JSON) :
  (∀ k, ¬ In (RegisterWorker k w) h →
     JSMap.get k (workerLobbies (state_after (Message w raw :: h)))
     = JSMap.get k (workerLobbies (state_after h)))
  ∧ ((∀ k, ¬ In (RegisterWorker k w) h) →
     step (Message w raw) (state_after h) = (state_after h, [])).
Proof.
  split.
  - intros k Hk. rewrite state_after_cons. simpl. rewrite emit_workerLobbies.
    destruct (WorkerMessageSchema_safeParse raw) as [[lobbies|id]|];
      [|done..].
    rewrite get_foldl_set. rewrite decide_False; [done|].
    by rewrite elem_of_listeners_of.
  - intros Hnever. simpl.
    destruct (listeners_of w (state_after h)) as [|k ks] eqn:Hl; [done|].
    destruct (Hnever k). apply elem_of_listeners_of. rewrite Hl. left.
Qed.

(** X5. [removeWorker(k)] forgets the handle, the lobby list and the
    readiness of [k] and of no other identity; it keeps the flag and does not
    detach the listener of the removed handle; removing again changes
    nothing. *)
Theorem removeWorker_forgets_only_that_worker (k : Z)
    (s : MasterLobbyService) :
  let s' := removeWorker k s in
  JSMap.get k (workers s') = None
  ∧ JSMap.get k (workerLobbies s') = None
  ∧ (k ∉ readyWorkers s')
  ∧ (∀ k', k' ≠ k →
       JSMap.get k' (workers s') = JSMap.get k' (workers s)
       ∧ JSMap.get k' (workerLobbies s') = JSMap.get k' (workerLobbies s)
       ∧ (k' ∈ readyWorkers s' ↔ k' ∈ readyWorkers s))
  ∧ started s' = started s
  ∧ listeners s' = listeners s
  ∧ removeWorker k s' = s'.
Proof.
  simpl. split_and!; try done.
  - rewrite JSMapFacts.get_delete. by rewrite decide_True.
  - rewrite JSMapFacts.get_delete. by rewrite decide_True.
  - set_solver.
  - intros k' Hne. rewrite !JSMapFacts.get_delete.
    rewrite !decide_False by done. split_and!; [done..|set_solver].
  - unfold removeWorker. simpl.
    assert (Hdel : ∀ V (m : list (Z * V)),
              JSMap.delete k (JSMap.delete k m) = JSMap.delete k m).
    { intros V m. apply JSMapFacts.delete_not_key.
      rewrite JSMapFacts.keys_delete. intros [Hk _]%list_elem_of_filter.
      done. }
    rewrite !Hdel. f_equal. set_solver.
Qed.
End coordinator_extras.

Lemma started_is_permanent_witness :
  started (@state_after spec_schemas two_workers history_running) = true
  ∧ started (@state_after spec_schemas two_workers
               ([RemoveWorker 1; RemoveWorker 0] ++ history_running)) = true.
Proof.
  assert (Hs : started (@state_after spec_schemas two_workers history_running)
               = true) by reflexivity.
  split; [exact Hs|].
  exact (proj1 (@started_is_permanent spec_schemas two_workers
                  history_running [RemoveWorker 1; RemoveWorker 0] Hs)).
Defined.

Lemma scheduled_lobby_starts_last_witness :
  let s := @state_after spec_schemas two_workers history_reported in
  0 < @gameCreationRate two_workers
  ∧ Number_isSafeInteger (@gameCreationRate two_workers)
  ∧ Forall (λ x, Number_isSafeInteger x
                 ∧ Number_isSafeInteger (x + @gameCreationRate two_workers))
           (1000 :: (startsAt <$> getAllLobbies s))
  ∧ @maybeScheduleLobby two_workers 1000 "abc" (Some JNull) s s
    = Returned [WorkerSend worker_b (MasterCreateGame "abc" JNull 150000);
                Log (Info_ScheduledPublicGame "abc" 1)]
  ∧ 1000 < 150000
  ∧ (∀ pb, pb ∈ getAllLobbies s → startsAt pb < 150000)
  ∧ Number_isSafeInteger 150000.
Proof.
  intros s.
  assert (Hrate : 0 < @gameCreationRate two_workers) by reflexivity.
  assert (Hint : Number_isSafeInteger (@gameCreationRate two_workers)).
  { unfold Number_isSafeInteger, Number_MAX_SAFE_INTEGER. cbn. lia. }
  assert (Hsafe : Forall (λ x, Number_isSafeInteger x
                     ∧ Number_isSafeInteger (x + @gameCreationRate two_workers))
                    (1000 :: (startsAt <$> getAllLobbies s))).
  { change (startsAt <$> getAllLobbies s) with [90000].
    unfold Number_isSafeInteger, Number_MAX_SAFE_INTEGER.
    repeat constructor; (cbn; lia). }
  assert (Htick : @maybeScheduleLobby two_workers 1000 "abc" (Some JNull) s s
                  = Returned
                      [WorkerSend worker_b
                         (MasterCreateGame "abc" JNull 150000);
                       Log (Info_ScheduledPublicGame "abc" 1)])
    by reflexivity.
  destruct (@scheduled_lobby_starts_last two_workers 1000 "abc" (Some JNull)
              s s _ worker_b "abc" JNull 150000 Hrate Hint Hsafe Htick
              ltac:(left)) as (Hnow & Hall & Hsum).
  split_and!; [exact Hrate|exact Hint|exact Hsafe|exact Htick|exact Hnow|
               exact Hall|exact Hsum].
Defined.

Lemma message_reaches_own_registrations_witness :
  ¬ In (RegisterWorker 1 worker_a) history_running
  ∧ JSMap.get 1
      (workerLobbies (@state_after spec_schemas two_workers history_reported))
    = JSMap.get 1
        (workerLobbies (@state_after spec_schemas two_workers history_running)).
Proof.
  assert (Hnot : ¬ In (RegisterWorker 1 worker_a) history_running).
  { simpl. intros [H|[H|[H|[H|[]]]]]; discriminate H. }
  split; [exact Hnot|].
  exact (proj1 (@message_reaches_own_registrations spec_schemas two_workers
                  history_running worker_a report_one_lobby) 1 Hnot).
Defined.

Lemma aggregate_is_stable_sort_witness :
  let s := @state_after spec_schemas two_workers history_reported in
  getAllLobbies s = lobby_AbCdEfGh :: []
  ∧ ∀ pb, pb ∈ concat (JSMap.values (workerLobbies s)) →
          startsAt lobby_AbCdEfGh ≤ startsAt pb.
Proof.
  intros s.
  assert (Heq : getAllLobbies s = lobby_AbCdEfGh :: []) by reflexivity.
  split; [exact Heq|].
  destruct (aggregate_is_stable_sort s) as (_ & _ & _ & _ & Hfirst).
  exact (Hfirst lobby_AbCdEfGh [] Heq).
Defined.

(** ** The message schemas *)

Section schema_extras.
Context `{CoreSchemas}.

Lemma obj_get_cons_ne k k' v fields :
  k ≠ k' → obj_get k' ((k, v) :: fields) = obj_get k' fields.
Proof. intros Hne. simpl. by rewrite decide_False. Qed.

(** X6. The two directions of the protocol are disjoint: no payload is
    accepted both as a worker message and as a master message, so a message
    that comes back on the channel it was sent on is rejected. *)
Theorem directions_are_disjoint (raw : JSON) :
  WorkerMessageSchema_safeParse raw = None
  ∨ MasterMessageSchema_safeParse raw = None.
Proof.
  destruct raw as [| | | | |fields]; try by left.
  unfold WorkerMessageSchema_safeParse, MasterMessageSchema_safeParse.
  destruct (obj_get "type" fields) as [[| | |t| |]|]; try by left.
  destruct (decide (t = "lobbyList")) as [->|]; [by right|].
  destruct (decide (t = "workerReady")) as [->|]; [by right|by left].
Qed.

(** X7. A payload is accepted only if it is an object whose [type] is one
    of the two discriminators of its direction, and the message it is
    parsed to is of that kind: anything else (a non-object, a missing or
    non-string [type], an unknown [type]) is rejected. *)
Theorem accepted_payload_shape (raw : JSON) :
  (∀ msg, WorkerMessageSchema_safeParse raw = Some msg →
     ∃ fields, raw = JObj fields
       ∧ match msg with
         | WorkerLobbyList _ =>
             obj_get "type" fields = Some (JStr "lobbyList")
         | WorkerReady n =>
             obj_get "type" fields = Some (JStr "workerReady")
             ∧ obj_get "workerId" fields = Some (JNum n)
         end)
  ∧ (∀ msg, MasterMessageSchema_safeParse raw = Some msg →
       ∃ fields, raw = JObj fields
         ∧ match msg with
           | MasterLobbiesBroadcast _ =>
               obj_get "type" fields = Some (JStr "lobbiesBroadcast")
           | MasterCreateGame id _ t =>
               obj_get "type" fields = Some (JStr "createGame")
               ∧ obj_get "gameID" fields = Some (JStr id)
               ∧ obj_get "startsAt" fields = Some (JNum t)
           end).
Proof.
  split; intros msg.
  - destruct raw as [| | | | |fields]; try done.
    unfold WorkerMessageSchema_safeParse.
    destruct (obj_get "type" fields) as [[| | |t| |]|] eqn:Ht; try done.
    destruct (decide (t = "lobbyList")) as [->|].
    + unfold WorkerLobbyListSchema.
      destruct (obj_get "lobbies" fields) as [[| | | |items|]|]; try done.
      destruct (mapM PublicGameInfoSchema items); [|done].
      intros [= <-]. by exists fields.
    + destruct (decide (t = "workerReady")) as [->|]; [|done].
      unfold WorkerReadySchema.
      destruct (obj_get "workerId" fields) as [[| |num| | |]|] eqn:Hid;
        try done.
      intros [= <-]. by exists fields.
  - destruct raw as [| | | | |fields]; try done.
    unfold MasterMessageSchema_safeParse.
    destruct (obj_get "type" fields) as [[| | |t| |]|] eqn:Ht; try done.
    destruct (decide (t = "lobbiesBroadcast")) as [->|].
    + unfold MasterLobbiesBroadcastSchema.
      destruct (obj_get "publicGames" fields) as [v|]; [|done].
      destruct (PublicGamesSchema v); [|done].
      intros [= <-]. by exists fields.
    + destruct (decide (t = "createGame")) as [->|]; [|done].
      unfold MasterCreateGameSchema.
      destruct (obj_get "gameID" fields) as [[| | |id| |]|] eqn:Hid;
        try done.
      destruct (obj_get "gameConfig" fields) as [cfg|]; [|done].
      destruct (obj_get "startsAt" fields) as [[| |time| | |]|] eqn:Hat;
        try done.
      destruct (GameConfigSchema cfg); [|done].
      intros [= <-]. by exists fields.
Qed.

(** X8. A property that the schemas do not name is ignored: putting it in
    front of the others changes neither whether a payload is accepted nor
    what it is parsed to. *)
Theorem unknown_property_is_ignored (k : string) (v : JSON)
    (fields : list (string * JSON)) :
  k ∉ ["type"; "lobbies"; "workerId"; "publicGames"; "gameID";
       "gameConfig"; "startsAt"] →
  WorkerMessageSchema_safeParse (JObj ((k, v) :: fields))
  = WorkerMessageSchema_safeParse (JObj fields)
  ∧ MasterMessageSchema_safeParse (JObj ((k, v) :: fields))
    = MasterMessageSchema_safeParse (JObj fields).
Proof.
  intros Hk. rewrite !not_elem_of_cons in Hk.
  destruct Hk as (? & ? & ? & ? & ? & ? & ? & _).
  unfold WorkerMessageSchema_safeParse, MasterMessageSchema_safeParse,
    WorkerLobbyListSchema, WorkerReadySchema, MasterLobbiesBroadcastSchema,
    MasterCreateGameSchema.
  by rewrite !obj_get_cons_ne by done.
Qed.

(** X9. The ready signal makes the round trip: what [sendReady(id)] puts on
    the channel is accepted by the master's schema, and the listener of
    whichever registration receives it marks [id], the identity named in the
    message, as ready. A process without an IPC channel sends nothing. *)
Theorem ready_signal_round_trip `{ServerConfig} (id workerId : Z)
    (s : WorkerLobbyService) (m : MasterLobbyService) :
  if process_send s then
    ∃ raw, sendReady id s = [ProcessSend raw]
      ∧ WorkerMessageSchema_safeParse raw = Some (WorkerReady id)
      ∧ onMessage workerId raw m = handleWorkerReady id m
      ∧ id ∈ readyWorkers (onMessage workerId raw m).1
  else sendReady id s = [].
Proof.
  unfold sendReady. destruct (process_send s); [|done].
  exists (readyMessage id). split_and!; [done..|].
  unfold onMessage. simpl.
  destruct (handleWorkerReady_frame id m) as (_ & _ & _ & ->). set_solver.
Qed.

(** X10. The command that the master builds for a lobby is accepted by the
    worker's schema exactly when the game configuration passes
    [GameConfigSchema], and then carries the id and the start time
    unchanged; the master's own listener would reject it. *)
Theorem createGame_command_round_trip (id : GameID) (cfg : GameConfig)
    (t : Z) :
  MasterMessageSchema_safeParse (createGameMessage id cfg t)
  = (λ cfg', MasterCreateGame id cfg' t) <$> GameConfigSchema cfg
  ∧ WorkerMessageSchema_safeParse (createGameMessage id cfg t) = None.
Proof. done. Qed.
End schema_extras.

Lemma accepted_payload_shape_witness :
  @WorkerMessageSchema_safeParse spec_schemas (readyMessage 1)
  = Some (WorkerReady 1)
  ∧ ∃ fields, readyMessage 1 = JObj fields
      ∧ obj_get "type" fields = Some (JStr "workerReady")
      ∧ obj_get "workerId" fields = Some (JNum 1).
Proof.
  assert (Hp : @WorkerMessageSchema_safeParse spec_schemas (readyMessage 1)
               = Some (WorkerReady 1)) by reflexivity.
  split; [exact Hp|].
  exact (proj1 (@accepted_payload_shape spec_schemas (readyMessage 1)) _ Hp).
Defined.

Lemma unknown_property_is_ignored_witness :
  ("pid" ∉ ["type"; "lobbies"; "workerId"; "publicGames"; "gameID";
            "gameConfig"; "startsAt"])
  ∧ @WorkerMessageSchema_safeParse spec_schemas
      (JObj [("pid", JNum 4711); ("type", JStr "workerReady");
             ("workerId", JNum 1)])
    = Some (WorkerReady 1).
Proof.
  assert (Hk : "pid" ∉ ["type"; "lobbies"; "workerId"; "publicGames";
                        "gameID"; "gameConfig"; "startsAt"]).
  { rewrite !not_elem_of_cons. split_and!; try discriminate.
    apply not_elem_of_nil. }
  split; [exact Hk|].
  rewrite (proj1 (@unknown_property_is_ignored spec_schemas "pid" (JNum 4711)
                    [("type", JStr "workerReady"); ("workerId", JNum 1)] Hk)).
  reflexivity.
Defined.

(** ** The viewer connections of a worker *)

Lemma String_length_app (p q : string) :
  String.length (p +:+ q) = (String.length p + String.length q)%nat.
Proof.
  induction p as [|a p IH]; [done|].
  change (S (String.length (p +:+ q))
          = S (String.length p + String.length q)).
  by rewrite IH.
Qed.

Lemma substring_whole (q : string) :
  String.substring 0 (String.length q) q = q.
Proof. induction q as [|a q IH]; simpl; [done|]. by rewrite IH. Qed.

Lemma substring_app_r (p q : string) :
  String.substring (String.length p) (String.length q) (p +:+ q) = q.
Proof.
  induction p as [|a p IH]; [apply substring_whole|].
  change (String.substring (String.length p) (String.length q) (p +:+ q) = q).
  exact IH.
Qed.

Lemma substring_split (s : string) (n : nat) :
  (n ≤ String.length s)%nat →
  String.substring 0 n s
  +:+ String.substring n (String.length s - n) s = s.
Proof.
  revert n. induction s as [|a s IH]; intros [|n] Hn; simpl in Hn.
  - done.
  - lia.
  - change (String a (String.substring 0 (String.length s) s) = String a s).
    by rewrite substring_whole.
  - change (String a (String.substring 0 n s
                      +:+ String.substring n (String.length s - n) s)
            = String a s).
    rewrite IH; [done|lia].
Qed.

Lemma String_endsWith_spec (s searchString : string) :
  String_endsWith s searchString = true ↔ ∃ p, s = p +:+ searchString.
Proof.
  unfold String_endsWith. split.
  - destruct (decide _) as [Hle|]; [|done].
    intros Heq%bool_decide_eq_true.
    pose proof (substring_split s
                  (String.length s - String.length searchString)
                  ltac:(lia)) as Hsplit.
    replace (String.length s
             - (String.length s - String.length searchString))%nat
      with (String.length searchString) in Hsplit by lia.
    rewrite Heq in Hsplit. by eexists.
  - intros [p ->]. rewrite String_length_app.
    rewrite decide_True by lia. apply bool_decide_eq_true.
    replace (String.length p + String.length searchString
             - String.length searchString)%nat
      with (String.length p) by lia.
    apply substring_app_r.
Qed.

(** X11. An upgrade request goes to the lobbies server exactly when its URL
    ends in ["/lobbies"], whatever precedes it (such as the worker prefix
    that the client puts in front); every other URL, and a request without
    URL, goes to the game server. *)
Theorem upgrade_routing (url : option string) :
  (upgrade_target url = ToLobbiesWss
   ↔ ∃ prefix, url = Some (prefix +:+ "/lobbies"))
  ∧ (upgrade_target url = ToGameWss
     ↔ ¬ ∃ prefix, url = Some (prefix +:+ "/lobbies")).
Proof.
  assert (Hlobbies : upgrade_target url = ToLobbiesWss
                     ↔ ∃ prefix, url = Some (prefix +:+ "/lobbies")).
  { unfold upgrade_target. destruct url as [pathname|]; simpl.
    - destruct (String_endsWith pathname "/lobbies") eqn:Hends.
      + rewrite orb_true_r. split; [intros _|done].
        apply String_endsWith_spec in Hends as [p ->]. by exists p.
      + rewrite orb_false_r. destruct (bool_decide _) eqn:Heq.
        * apply bool_decide_eq_true in Heq as ->. done.
        * split; [done|]. intros [p [= ->]].
          assert (String_endsWith (p +:+ "/lobbies") "/lobbies" = true)
            by (apply String_endsWith_spec; by exists p).
          congruence.
    - split; [done|]. by intros [p [=]]. }
  split; [done|]. rewrite <- Hlobbies.
  destruct (upgrade_target url); naive_solver.
Qed.

Section filter_facts.
Context {A : Type} (P Q : A → Prop) `{!∀ x, Decision (P x)}
        `{!∀ x, Decision (Q x)}.

Lemma filter_all (l : list A) : (∀ x, x ∈ l → P x) → filter P l = l.
Proof.
  induction l as [|x l IH]; intros Hall; [done|].
  rewrite filter_cons_True by (apply Hall; left).
  rewrite IH; [done|]. intros y Hy. apply Hall. by right.
Qed.

Lemma filter_none (l : list A) : (∀ x, x ∈ l → ¬ P x) → filter P l = [].
Proof.
  induction l as [|x l IH]; intros Hnone; [done|].
  rewrite filter_cons_False by (apply Hnone; left).
  apply IH. intros y Hy. apply Hnone. by right.
Qed.

Lemma filter_ext_elem_of (l : list A) :
  (∀ x, x ∈ l → P x ↔ Q x) → filter P l = filter Q l.
Proof.
  induction l as [|x l IH]; intros Hiff; [done|].
  assert (Hrest : filter P l = filter Q l).
  { apply IH. intros y Hy. apply Hiff. by right. }
  destruct (decide (P x)) as [Hp|Hp].
  - rewrite !filter_cons_True; [by rewrite Hrest|by apply Hiff; [left|]|done].
  - rewrite !filter_cons_False; [done| |done].
    intros Hq. apply Hp. apply Hiff; [left|done].
Qed.
End filter_facts.

Lemma NoDup_fmap_elem_inj {A B} (f : A → B) (l : list A) (x y : A) :
  NoDup (f <$> l) → x ∈ l → y ∈ l → f x = f y → x = y.
Proof.
  induction l as [|a l IH]; csimpl; [by intros _ ?%elem_of_nil|].
  intros [Hnin Hnd]%NoDup_cons Hx Hy Heq.
  apply elem_of_cons in Hx as [->|Hx], Hy as [->|Hy]; [done| | |by apply IH].
  - destruct Hnin. rewrite Heq. by apply list_elem_of_fmap_2.
  - destruct Hnin. rewrite <- Heq. by apply list_elem_of_fmap_2.
Qed.

Section viewer_extras.
Context `{CoreSchemas}.
Implicit Types (c ws : WebSocket) (cs : list WebSocket).

Lemma foldl_delete_client (removed cs : list WebSocket) :
  foldl (λ cs c, delete_client c cs) cs removed
  = filter (λ c', socket c' ∉ socket <$> removed) cs.
Proof.
  revert cs. induction removed as [|c removed IH]; intros cs; csimpl.
  - symmetry. apply filter_all. intros c' _. apply not_elem_of_nil.
  - rewrite IH. unfold delete_client. rewrite list_filter_filter.
    apply list_filter_iff. intros c'. rewrite ?fmap_cons, not_elem_of_cons.
    tauto.
Qed.

(** X12. After a broadcast the viewer set holds open connections only, all
    of them taken from the set before; if the set held distinct objects it
    now holds exactly the open ones, in their order, and a second broadcast
    right away reaches the same connections and removes none. *)
Theorem broadcast_prunes_viewers (view : PublicGames)
    (s : WorkerLobbyService) :
  let s' := (broadcastLobbiesToClients view s).1 in
  Forall (λ c, readyState c = OPEN) (lobbyClients s')
  ∧ lobbyClients s' ⊆ lobbyClients s
  ∧ (NoDup (socket <$> lobbyClients s) →
     lobbyClients s' = filter (λ c, readyState c = OPEN) (lobbyClients s)
     ∧ broadcastLobbiesToClients view s'
       = (s', (broadcastLobbiesToClients view s).2)).
Proof.
  simpl. rewrite foldl_delete_client.
  set (gone := filter (λ c, readyState c ≠ OPEN) (lobbyClients s)).
  assert (Hopen : ∀ c, c ∈ filter (λ c', socket c' ∉ socket <$> gone)
                           (lobbyClients s) → readyState c = OPEN).
  { intros c [Hkeep Hin]%list_elem_of_filter.
    destruct (decide (readyState c = OPEN)) as [|Hno]; [done|].
    destruct Hkeep. apply list_elem_of_fmap. exists c. split; [done|].
    by apply list_elem_of_filter. }
  split_and!.
  - by apply Forall_forall.
  - intros c [_ Hin]%list_elem_of_filter. done.
  - intros Hnd.
    assert (Hexact : filter (λ c', socket c' ∉ socket <$> gone)
                            (lobbyClients s)
                     = filter (λ c, readyState c = OPEN) (lobbyClients s)).
    { apply filter_ext_elem_of. intros c Hc. split.
      - intros Hkeep. apply Hopen. by apply list_elem_of_filter.
      - intros Hc_open (c' & Hsock & [Hno Hc']%list_elem_of_filter)
          %list_elem_of_fmap.
        assert (c = c'); [|congruence].
        by apply (NoDup_fmap_elem_inj socket (lobbyClients s)). }
    split; [done|].
    unfold broadcastLobbiesToClients. simpl. rewrite foldl_delete_client.
    fold gone. rewrite Hexact.
    assert (Hidem : filter (λ c, readyState c = OPEN)
                      (filter (λ c, readyState c = OPEN) (lobbyClients s))
                    = filter (λ c, readyState c = OPEN) (lobbyClients s)).
    { apply filter_all. intros c [? _]%list_elem_of_filter. done. }
    rewrite Hidem.
    assert (Hnone : filter (λ c, readyState c ≠ OPEN)
                      (filter (λ c, readyState c = OPEN) (lobbyClients s))
                    = []).
    { apply filter_none. intros c [? _]%list_elem_of_filter Hne.
      by apply Hne. }
    rewrite Hnone. simpl. f_equal. f_equal.
    apply filter_all. intros c _. apply not_elem_of_nil.
Qed.

(** X13. A viewer connection that is not yet in the set and is closed again
    leaves the set as it was; once a connection has been closed or has
    raised an error no broadcast is sent to it; and an open connection that
    has just been added receives the next broadcast. *)
Theorem viewer_connection_lifecycle (ws : WebSocket) (view : PublicGames)
    (closeThrows : bool) (s : WorkerLobbyService) :
  (socket ws ∉ socket <$> lobbyClients s → onClose ws (onConnection ws s) = s)
  ∧ (∀ c, ClientSend c view
          ∈ (broadcastLobbiesToClients view (onClose ws s)).2 →
          socket c ≠ socket ws)
  ∧ (∀ c, ClientSend c view
          ∈ (broadcastLobbiesToClients view (onError ws closeThrows s).1).2 →
          socket c ≠ socket ws)
  ∧ (socket ws ∉ socket <$> lobbyClients s → readyState ws = OPEN →
     ClientSend ws view
     ∈ (broadcastLobbiesToClients view (onConnection ws s)).2).
Proof.
  assert (Hdeleted : ∀ c, ClientSend c view
            ∈ ((λ c, ClientSend c view)
                 <$> filter (λ c, readyState c = OPEN)
                       (delete_client ws (lobbyClients s))) →
            socket c ≠ socket ws).
  { intros c (c' & [= ->] & [_ Hin]%list_elem_of_filter)%list_elem_of_fmap.
    unfold delete_client in Hin.
    by apply list_elem_of_filter in Hin as [? _]. }
  split_and!; [|done|done|].
  - intros Hnew. unfold onClose, onConnection, add_client. simpl.
    rewrite bool_decide_eq_false_2 by done.
    destruct s as [clients games send]. simpl in *. f_equal.
    unfold delete_client. rewrite filter_app.
    rewrite filter_cons_False by (intros Hne; by apply Hne).
    rewrite filter_nil, app_nil_r.
    apply filter_all. intros c Hc Heq. apply Hnew.
    apply list_elem_of_fmap. by exists c.
  - intros Hnew Hopen. unfold onConnection, add_client. simpl.
    rewrite bool_decide_eq_false_2 by done.
    apply list_elem_of_fmap. exists ws. split; [done|].
    apply list_elem_of_filter. split; [done|].
    apply elem_of_app. right. by apply list_elem_of_singleton.
Qed.
End viewer_extras.

Lemma upgrade_routing_witness :
  upgrade_target (Some "/w1/lobbies") = ToLobbiesWss
  ∧ upgrade_target (Some "/w1/lobbies?x") = ToGameWss
  ∧ upgrade_target None = ToGameWss.
Proof.
  split_and!; [|reflexivity..].
  apply (proj1 (upgrade_routing (Some "/w1/lobbies"))). by exists "/w1".
Defined.

Lemma broadcast_prunes_viewers_witness :
  NoDup (socket <$> lobbyClients worker_service)
  ∧ lobbyClients (broadcastLobbiesToClients empty_view worker_service).1
    = [viewer_open].
Proof.
  assert (Hnd : NoDup (socket <$> lobbyClients worker_service)).
  { repeat constructor; rewrite ?elem_of_cons, ?elem_of_nil;
      intros Hin; repeat destruct Hin as [Hin|Hin]; discriminate || done. }
  split; [exact Hnd|].
  destruct (@broadcast_prunes_viewers empty_view worker_service)
    as (_ & _ & Hexact).
  destruct (Hexact Hnd) as [-> _]. reflexivity.
Defined.

Lemma viewer_connection_lifecycle_witness :
  let ws := {| socket := 12; readyState := OPEN |} in
  (socket ws ∉ socket <$> lobbyClients worker_service)
  ∧ onClose ws (onConnection ws worker_service) = worker_service
  ∧ ClientSend ws empty_view
    ∈ (broadcastLobbiesToClients empty_view
         (onConnection ws worker_service)).2.
Proof.
  intros ws.
  assert (Hnew : socket ws ∉ socket <$> lobbyClients worker_service).
  { simpl. rewrite !not_elem_of_cons. split_and!; try discriminate.
    apply not_elem_of_nil. }
  destruct (@viewer_connection_lifecycle ws empty_view false worker_service)
    as (Hround & _ & _ & Hnext).
  split_and!; [exact Hnew|exact (Hround Hnew)|exact (Hnext Hnew eq_refl)].
Defined.

(** ** The master process *)

Section pool_facts.
Context {K : Type} `{EqDecision K} {V : Type}.
Implicit Types (m : list (K * V)) (k : K) (v : V).

Lemma JSMap_set_fresh m k v :
  k ∉ JSMap.keys m → JSMap.set k v m = m ++ [(k, v)].
Proof.
  unfold JSMap.keys. induction m as [|[k0 v0] m IH]; csimpl; [done|].
  rewrite not_elem_of_cons. intros [Hne Hnin].
  rewrite decide_False by done. by rewrite IH.
Qed.

End pool_facts.

Section master_process.
Context `{CoreSchemas} `{ServerConfig}.

Lemma pool_from_keys n ids : (pool_from n ids).*1 = ids.
Proof.
  revert n. induction ids as [|j ids IH]; intros n; csimpl; [done|].
  by rewrite IH.
Qed.

Lemma pool_from_handles n ids :
  handle <$> (pool_from n ids).*2 = seq n (length ids).
Proof.
  revert n. induction ids as [|j ids IH]; intros n; csimpl; [done|].
  by rewrite IH.
Qed.

Lemma fork_workers_cons j ids (m : MasterProcess) :
  fork_workers (j :: ids) m
  = ((fork_workers ids (fork_worker j m).1).1,
     (fork_worker j m).2 ++ (fork_workers ids (fork_worker j m).1).2).
Proof.
  cbn [fork_workers]. destruct (fork_worker j m) as [m1 e1].
  cbn [fst snd]. by destruct (fork_workers ids m1).
Qed.

Lemma fork_workers_pool ids (m : MasterProcess) :
  NoDup ids →
  (∀ j, j ∈ ids → j ∉ JSMap.keys (workers (lobbyService m))) →
  workers (lobbyService (fork_workers ids m).1)
  = workers (lobbyService m) ++ pool_from (forked m) ids
  ∧ workerLobbies (lobbyService (fork_workers ids m).1)
    = workerLobbies (lobbyService m)
  ∧ readyWorkers (lobbyService (fork_workers ids m).1)
    = readyWorkers (lobbyService m)
  ∧ started (lobbyService (fork_workers ids m).1) = started (lobbyService m)
  ∧ forked (fork_workers ids m).1 = (forked m + length ids)%nat
  ∧ forks (fork_workers ids m).2
    = (λ e, ({| WORKER_ID := EnvNum e.1; ADMIN_TOKEN := admin_token m;
                INSTANCE_ID := instance_id m |}, e.2))
        <$> pool_from (forked m) ids.
Proof.
  intros Hnd. revert m.
  induction Hnd as [|j ids Hj Hnd IH]; intros m Hfresh.
  { simpl. rewrite app_nil_r. split_and!; [done..|lia|done]. }
  rewrite fork_workers_cons. unfold fork_worker.
  set (env := {| WORKER_ID := EnvNum j; ADMIN_TOKEN := admin_token m;
                 INSTANCE_ID := instance_id m |}).
  set (m1 := {| lobbyService := registerWorker j (cluster_fork env m)
                                  (lobbyService m);
                admin_token := admin_token m; instance_id := instance_id m;
                forked := S (forked m) |}).
  assert (Hw1 : workers (lobbyService m1)
                = workers (lobbyService m) ++ [(j, cluster_fork env m)]).
  { simpl. apply JSMap_set_fresh, Hfresh. left. }
  destruct (IH m1) as (IHw & IHl & IHr & IHs & IHf & IHforks).
  { intros j' Hj'. rewrite Hw1. unfold JSMap.keys.
    rewrite fmap_app, not_elem_of_app. split.
    - apply Hfresh. by right.
    - csimpl. rewrite list_elem_of_singleton. by intros ->. }
  cbn [fst snd]. fold m1.
  destruct (fork_workers ids m1) as [m2 e2].
  unfold m1 in IHw, IHl, IHr, IHs, IHf, IHforks.
  cbn [fst snd lobbyService admin_token instance_id forked registerWorker
       workers workerLobbies readyWorkers started] in *.
  split_and!; [|done..|simpl; lia|].
  - rewrite IHw. rewrite JSMap_set_fresh by (apply Hfresh; left).
    by rewrite <- (assoc (++)).
  - change (forks ([Fork env (cluster_fork env m);
                    SLog (Info_StartedWorker j
                            (handle (cluster_fork env m)))] ++ e2))
      with ((env, cluster_fork env m) :: forks e2).
    by rewrite IHforks.
Qed.

(** The identities that [startMaster] registers and the number of
    processes it forks. *)
Lemma startMaster_registers (adminToken instanceId : string) :
  JSMap.keys (workers (lobbyService (startMaster adminToken instanceId).1))
  = seqZ 0 numWorkers
  ∧ forked (startMaster adminToken instanceId).1 = Z.to_nat numWorkers.
Proof.
  unfold startMaster.
  set (m0 := {| lobbyService := new_MasterLobbyService;
                admin_token := adminToken; instance_id := instanceId;
                forked := 0 |}).
  destruct (fork_workers_pool (seqZ 0 numWorkers) m0)
    as (Hw & _ & _ & _ & Hf & _).
  { apply NoDup_seqZ. }
  { intros j _. apply not_elem_of_nil. }
  rewrite Hw, Hf. cbn. split; [apply pool_from_keys|].
  rewrite length_seqZ. lia.
Qed.

(** X14. [startMaster] forks exactly [numWorkers] workers, one for each
    identity 0 .. [numWorkers]-1 in this order, each with its identity as
    [WORKER_ID] and with the same two tokens, as distinct worker objects,
    and registers each under its identity; when it returns no worker is
    ready, no lobby is known and the loops have not been started. *)
Theorem startMaster_forks_the_pool (adminToken instanceId : string) :
  let '(m, effects) := startMaster adminToken instanceId in
  JSMap.keys (workers (lobbyService m)) = seqZ 0 numWorkers
  ∧ (forks effects).*1
    = (λ j, {| WORKER_ID := EnvNum j; ADMIN_TOKEN := adminToken;
               INSTANCE_ID := instanceId |}) <$> seqZ 0 numWorkers
  ∧ (forks effects).*2 = JSMap.values (workers (lobbyService m))
  ∧ handle <$> JSMap.values (workers (lobbyService m))
    = seq 0 (Z.to_nat numWorkers)
  ∧ forked m = Z.to_nat numWorkers
  ∧ workerLobbies (lobbyService m) = []
  ∧ readyWorkers (lobbyService m) = ∅
  ∧ started (lobbyService m) = false
  ∧ admin_token m = adminToken ∧ instance_id m = instanceId.
Proof.
  unfold startMaster.
  set (m0 := {| lobbyService := new_MasterLobbyService;
                admin_token := adminToken; instance_id := instanceId;
                forked := 0 |}).
  destruct (fork_workers_pool (seqZ 0 numWorkers) m0)
    as (Hw & Hl & Hr & Hs & Hf & Hforks).
  { apply NoDup_seqZ. }
  { intros j _. apply not_elem_of_nil. }
  destruct (fork_workers_tokens (seqZ 0 numWorkers) m0) as (Ha & Hi & _).
  destruct (fork_workers (seqZ 0 numWorkers) m0) as [m effects].
  simpl in *. rewrite Hw, Hforks.
  split_and!; [|..|done|done|done|done|done].
  - apply pool_from_keys.
  - rewrite <- list_fmap_compose.
    rewrite <- (pool_from_keys 0%nat (seqZ 0 numWorkers)) at 2.
    by rewrite <- list_fmap_compose.
  - by rewrite <- list_fmap_compose.
  - unfold JSMap.values. by rewrite pool_from_handles, length_seqZ.
  - rewrite Hf, length_seqZ. lia.
Qed.

(** The exit of a worker that [cluster.fork] returned leaves the master
    process as it was. *)
Lemma master_step_exit (e : MasterEvent) (m : MasterProcess) :
  of_cluster_worker e → is_WorkerSays e = false → master_step e m = m.
Proof.
  destruct e as [worker code signal parsed|worker raw]; [|done].
  simpl. intros Hanon _. unfold onExit. by rewrite Hanon.
Qed.

(** A message leaves the registrations and the number of forks alone. *)
Lemma master_step_says (e : MasterEvent) (m : MasterProcess) :
  is_WorkerSays e = true →
  workers (lobbyService (master_step e m)) = workers (lobbyService m)
  ∧ forked (master_step e m) = forked m.
Proof.
  destruct e as [worker code signal parsed|worker raw]; [done|].
  intros _. simpl.
  by destruct (emit_frame (listeners_of worker (lobbyService m)) raw
                          (lobbyService m)) as [-> _].
Qed.

(** X15. No worker is ever replaced: through any run of worker messages
    and of exits of workers that [cluster.fork] returned, the master
    process goes through the states it would go through if no worker had
    exited. The registrations stay those that [startMaster] made, so that
    a worker that has exited stays registered under the object of its dead
    process, and no further process is forked. *)
Theorem exited_workers_stay_registered (adminToken instanceId : string)
    (events : list MasterEvent) :
  Forall of_cluster_worker events →
  let m0 := (startMaster adminToken instanceId).1 in
  master_after events m0
  = master_after (filter (λ e, is_WorkerSays e = true) events) m0
  ∧ workers (lobbyService (master_after events m0))
    = workers (lobbyService m0)
  ∧ forked (master_after events m0) = Z.to_nat numWorkers.
Proof.
  intros Hall m0.
  assert (Hrun : ∀ m,
            master_after events m
            = master_after (filter (λ e, is_WorkerSays e = true) events) m
            ∧ workers (lobbyService (master_after events m))
              = workers (lobbyService m)
            ∧ forked (master_after events m) = forked m).
  { unfold master_after.
    induction Hall as [|e events He _ IH]; intros m; [done|].
    cbn [foldl]. destruct (is_WorkerSays e) eqn:Hsays.
    - rewrite filter_cons_True by done. cbn [foldl].
      destruct (IH (master_step e m)) as (-> & -> & ->).
      by destruct (master_step_says e m Hsays) as [-> ->].
    - rewrite filter_cons_False by (by rewrite Hsays).
      rewrite (master_step_exit e m He Hsays). apply IH. }
  destruct (Hrun m0) as (Hsame & Hworkers & Hforked).
  split_and!; [done..|]. rewrite Hforked.
  apply startMaster_registers.
Qed.

(** Every step of the master process keeps a registered identity
    registered. *)
Lemma master_step_registered (e : MasterEvent) (m : MasterProcess) (k : Z) :
  is_Some (JSMap.get k (workers (lobbyService m))) →
  is_Some (JSMap.get k (workers (lobbyService (master_step e m)))).
Proof.
  destruct e as [worker code signal parsed|worker raw]; simpl.
  - unfold onExit. destruct (process_env_WORKER_ID worker); [|done].
    cbn. rewrite JSMapFacts.get_set, JSMapFacts.get_delete.
    destruct (decide (parsed = k)); [by eexists|done].
  - by destruct (emit_frame (listeners_of worker (lobbyService m)) raw
                            (lobbyService m)) as [-> _].
Qed.

Lemma master_after_registered (events : list MasterEvent)
    (m : MasterProcess) (k : Z) :
  is_Some (JSMap.get k (workers (lobbyService m))) →
  is_Some (JSMap.get k (workers (lobbyService (master_after events m)))).
Proof.
  unfold master_after. revert m.
  induction events as [|e events IH]; intros m Hm; [done|].
  cbn [foldl]. by apply IH, master_step_registered.
Qed.

(** X16. In the running master process, with at least one worker
    configured, a scheduling tick that finds fewer than two lobbies and
    gets a configuration from the playlist always finds a worker object
    registered at the index it has picked, whatever messages and exits
    the master process has seen: it sends exactly one [createGame], to
    that object, and never logs that the worker was not found. *)
Theorem whole_pool_tick_sends_one (adminToken instanceId : string)
    (events : list MasterEvent) (now : Z) (generated : GameID)
    (gameConfig : GameConfig) :
  0 < numWorkers →
  let s := lobbyService
             (master_after events (startMaster adminToken instanceId).1) in
  (length (getAllLobbies s) < 2)%nat →
  ∃ w t,
    JSMap.get (workerIndex generated) (workers s) = Some w
    ∧ maybeScheduleLobby now generated (Some gameConfig) s s
      = Returned [WorkerSend w (MasterCreateGame generated gameConfig t);
                  Log (Info_ScheduledPublicGame generated
                         (workerIndex generated))]
    ∧ createGame_count
        (maybeScheduleLobby now generated (Some gameConfig) s s) = 1%nat.
Proof.
  intros Hpos s Hfew.
  assert (Hreg : is_Some (JSMap.get (workerIndex generated) (workers s))).
  { unfold s. apply master_after_registered.
    assert (Hstart : is_Some (JSMap.get (workerIndex generated)
                       (workers (lobbyService
                          (startMaster adminToken instanceId).1)))).
    { destruct (startMaster_registers adminToken instanceId) as [Hkeys _].
      apply not_eq_None_Some. rewrite JSMapFacts.get_None_not_key, Hkeys.
      intros Hout. apply Hout. rewrite elem_of_seqZ. unfold workerIndex.
      pose proof (Z.mod_pos_bound (simpleHash generated) numWorkers Hpos).
      lia. }
    exact Hstart. }
  destruct Hreg as [w Hget].
  assert (Htick : maybeScheduleLobby now generated (Some gameConfig) s s
            = Returned
                [WorkerSend w
                   (MasterCreateGame generated gameConfig
                      (foldl (λ max pb, Z.max max (startsAt pb)) now
                             (getAllLobbies s) + gameCreationRate));
                 Log (Info_ScheduledPublicGame generated
                        (workerIndex generated))]).
  { unfold maybeScheduleLobby, maybeScheduleLobby_begin.
    rewrite decide_False by lia.
    unfold maybeScheduleLobby_resume. simpl. by rewrite Hget. }
  eexists w, _. split_and!; [exact Hget|exact Htick|by rewrite Htick].
Qed.
End master_process.

Lemma exited_workers_stay_registered_witness :
  let events := [WorkerSays worker_b (readyMessage 1);
                 WorkerExit worker_a (Some 1) None 0] in
  Forall of_cluster_worker events
  ∧ workers
      (lobbyService
         (@master_after spec_schemas two_workers events master_started))
    = [(0, worker_a); (1, worker_b)]
  ∧ forked (@master_after spec_schemas two_workers events master_started)
    = 2%nat.
Proof.
  intros events.
  assert (Hall : Forall of_cluster_worker events).
  { repeat constructor. }
  destruct (@exited_workers_stay_registered spec_schemas two_workers
              "5f2a" "DEV_ID" events Hall) as (_ & Hworkers & Hforked).
  split_and!; [exact Hall| |exact Hforked].
  etrans; [exact Hworkers|reflexivity].
Defined.

Lemma whole_pool_tick_sends_one_witness :
  let events := [WorkerExit worker_b None (Some "SIGKILL") 1] in
  let s := lobbyService
             (@master_after spec_schemas two_workers events master_started) in
  0 < @numWorkers two_workers
  ∧ (length (getAllLobbies s) < 2)%nat
  ∧ JSMap.get (@workerIndex two_workers "abc") (workers s) = Some worker_b
  ∧ createGame_count
      (@maybeScheduleLobby two_workers 1000 "abc" (Some JNull) s s) = 1%nat.
Proof.
  intros events s.
  assert (Hpos : 0 < @numWorkers two_workers) by reflexivity.
  assert (Hfew : (length (getAllLobbies s) < 2)%nat) by (vm_compute; lia).
  destruct (@whole_pool_tick_sends_one spec_schemas two_workers
              "5f2a" "DEV_ID" events 1000 "abc" JNull Hpos Hfew)
    as (w & t & _ & _ & Hone).
  split_and!; [exact Hpos|exact Hfew|reflexivity|exact Hone].
Defined.

(** ** The lobby card of the client *)

Lemma noteLobby_start offset images acc l id :
  JSMap.get id (noteLobby offset images acc l).1
  = match JSMap.get id acc.1 with
    | Some t => Some t
    | None => if decide (gameID l = id) then Some (startsAt l - offset)
              else None
    end.
Proof.
  unfold noteLobby. simpl.
  destruct (JSMap.get (gameID l) acc.1) as [t'|] eqn:Hl.
  - destruct (JSMap.get id acc.1) eqn:Hid; [done|].
    destruct (decide (gameID l = id)) as [Heq|]; [|done]. congruence.
  - rewrite JSMapFacts.get_set.
    destruct (decide (gameID l = id)) as [<-|]; [by rewrite Hl|].
    by destruct (JSMap.get id acc.1).
Qed.

Lemma foldl_noteLobby_start offset images lobbies acc id :
  JSMap.get id (foldl (noteLobby offset images) acc lobbies).1
  = match JSMap.get id acc.1 with
    | Some t => Some t
    | None => (λ l, startsAt l - offset)
                <$> head (filter (λ l, gameID l = id) lobbies)
    end.
Proof.
  revert acc. induction lobbies as [|l lobbies IH]; intros acc; simpl.
  - by destruct (JSMap.get id acc.1).
  - rewrite IH, noteLobby_start.
    destruct (JSMap.get id acc.1) as [t|]; [done|].
    destruct (decide (gameID l = id)) as [Heq|Hne].
    + by rewrite filter_cons_True.
    + by rewrite filter_cons_False.
Qed.


(** X17. The client fixes the start time of a lobby when it first sees the
    lobby: it stores [startsAt] shifted by the difference between the
    server's clock and its own at that moment, and no later update changes
    or removes the stored time, whatever [startsAt] it carries. *)
Theorem first_seen_start_is_kept (update : PublicGames) (now : Z)
    (s : PublicLobby) (id : GameID) :
  let s' := (handleLobbiesUpdate update now s).1 in
  JSMap.get id (lobbyIDToStart s')
  = match JSMap.get id (lobbyIDToStart s) with
    | Some start => Some start
    | None =>
        (λ l, startsAt l - (serverTime update - now))
          <$> head (filter (λ l, gameID l = id) (games update))
    end
  ∧ publicGames s' = Some update
  ∧ serverTimeOffset s' = serverTime update - now
  ∧ mapImages s' = mapImages s.
Proof.
  unfold handleLobbiesUpdate.
  pose proof (foldl_noteLobby_start (serverTime update - now) (mapImages s)
                (games update) (lobbyIDToStart s, []) id) as Hfold.
  destruct (foldl _ _ _) as [starts loads]. simpl in *. by rewrite Hfold.
Qed.



(** ** The viewer's socket *)

Section socket_extras.
Implicit Types (s : PublicLobbySocket) (env : ConnectEnv).

(** X19. However many close events follow one another on a connection,
    the failure is counted once and at most one reconnect is scheduled: a
    second close leaves the state as the first one left it and sets no
    timer. *)
Theorem close_is_counted_once (timer1 timer2 : nat) (s : PublicLobbySocket) :
  let s1 := (handleClose timer1 s).1 in
  (handleClose timer2 s1).1 = s1
  ∧ (∀ delay timer, SetTimeout delay timer ∉ (handleClose timer2 s1).2)
  ∧ wsConnectionAttempts s ≤ wsConnectionAttempts s1
      ≤ wsConnectionAttempts s + 1.
Proof.
  destruct s as [w pending attempts counted path delay maximum].
  unfold handleClose, countAttempt, scheduleReconnect. simpl.
  destruct counted; simpl;
    destruct (bool_decide (maximum ≤ _)) eqn:Hmax; simpl;
    try destruct pending as [t0|]; simpl; rewrite ?Hmax; simpl;
    (split_and!;
     [done
     |intros d t; rewrite !elem_of_cons, elem_of_nil; naive_solver
     |lia..]).
Qed.

Lemma lostConnection_given_up env s :
  wsAttemptCounted s = true → wsReconnectTimeout s = None →
  maxWsAttempts s ≤ wsConnectionAttempts s →
  lostConnection env s
  = (s, [Console Log_Disconnected; Console Error_MaxAttemptsReached]).
Proof.
  destruct s as [w pending attempts counted path delay maximum]. simpl.
  intros -> -> Hmax. unfold lostConnection, handleClose, countAttempt. simpl.
  by rewrite bool_decide_eq_true_2 by done.
Qed.

Lemma lostConnection_last env s :
  wsAttemptCounted s = false → wsReconnectTimeout s = None →
  maxWsAttempts s ≤ wsConnectionAttempts s + 1 →
  let s' := (lostConnection env s).1 in
  opened (lostConnection env s).2 = 0%nat
  ∧ wsAttemptCounted s' = true ∧ wsReconnectTimeout s' = None
  ∧ wsConnectionAttempts s' = wsConnectionAttempts s + 1
  ∧ maxWsAttempts s' = maxWsAttempts s.
Proof.
  destruct s as [w pending attempts counted path delay maximum]. simpl.
  intros -> -> Hmax. unfold lostConnection, handleClose, countAttempt. simpl.
  by rewrite bool_decide_eq_true_2 by done.
Qed.

Lemma lostConnection_retry env s :
  calm env →
  wsAttemptCounted s = false → wsReconnectTimeout s = None →
  wsConnectionAttempts s + 1 < maxWsAttempts s →
  let s' := (lostConnection env s).1 in
  opened (lostConnection env s).2 = 1%nat
  ∧ wsAttemptCounted s' = false ∧ wsReconnectTimeout s' = None
  ∧ wsConnectionAttempts s' = wsConnectionAttempts s + 1
  ∧ maxWsAttempts s' = maxWsAttempts s
  ∧ ws s' = Some (newSocket env).
Proof.
  destruct s as [w pending attempts counted path delay maximum]. simpl.
  intros [Hclose Hnew] -> -> Hmax.
  unfold lostConnection, handleClose, countAttempt, scheduleReconnect. simpl.
  rewrite bool_decide_eq_false_2 by lia. simpl.
  unfold onReconnectTimer, connectWebSocket. simpl.
  rewrite Hclose, Hnew, andb_false_r. simpl.
  split_and!; try done. by destruct w.
Qed.

Lemma lostConnections_given_up envs s :
  wsAttemptCounted s = true → wsReconnectTimeout s = None →
  maxWsAttempts s ≤ wsConnectionAttempts s →
  (lostConnections envs s).1 = s ∧ opened (lostConnections envs s).2 = 0%nat.
Proof.
  intros Hc Ht Hmax. induction envs as [|env envs IH]; simpl; [done|].
  rewrite lostConnection_given_up by done. destruct IH as [IHs IHo].
  destruct (lostConnections envs s) as [s2 e2]. simpl in *. done.
Qed.

Lemma opened_app (es1 es2 : list SocketEffect) :
  opened (es1 ++ es2) = (opened es1 + opened es2)%nat.
Proof. unfold opened. by rewrite omap_app, length_app. Qed.

(** X20. A socket whose connection keeps being lost before it opens, and
    whose [connectWebSocket] never throws, reconnects until it has counted
    [maxWsAttempts] failures and then stops: over any number of losses it
    opens as many new sockets as there are losses, but never more than the
    attempts that were left minus one, it counts one failure per loss up to
    the maximum, and no reconnect timer is left pending. *)
Theorem reconnects_are_bounded (envs : list ConnectEnv)
    (s : PublicLobbySocket) :
  Forall calm envs →
  wsAttemptCounted s = false → wsReconnectTimeout s = None →
  wsConnectionAttempts s < maxWsAttempts s →
  let left := maxWsAttempts s - wsConnectionAttempts s in
  let s' := (lostConnections envs s).1 in
  opened (lostConnections envs s).2
  = Nat.min (length envs) (Z.to_nat (left - 1))
  ∧ wsConnectionAttempts s'
    = wsConnectionAttempts s + Z.min (Z.of_nat (length envs)) left
  ∧ wsReconnectTimeout s' = None
  ∧ (wsAttemptCounted s' = true ↔ left ≤ Z.of_nat (length envs)).
Proof.
  intros Hcalm. revert s.
  induction Hcalm as [|env envs Henv _ IH]; intros s Hc Ht Hlt;
    cbn [lostConnections length].
  { cbn [fst snd]. split_and!; [done|lia|done|]. rewrite Hc.
    split; [done|lia]. }
  destruct (decide (wsConnectionAttempts s + 1 < maxWsAttempts s))
    as [Hmore|Hlast].
  - destruct (lostConnection_retry env s Henv Hc Ht Hmore)
      as (Ho & Hc1 & Ht1 & Ha1 & Hm1 & _).
    destruct (lostConnection env s) as [s1 e1]. cbn [fst snd] in *.
    destruct (IH s1 Hc1 Ht1 ltac:(lia)) as (IHo & IHa & IHt & IHc).
    destruct (lostConnections envs s1) as [s2 e2]. cbn [fst snd] in *.
    rewrite opened_app, Ho, IHo, IHa, Ha1, Hm1. rewrite Hm1, Ha1 in IHc.
    split_and!; [lia|lia|done|]. rewrite IHc. lia.
  - destruct (lostConnection_last env s Hc Ht ltac:(lia))
      as (Ho & Hc1 & Ht1 & Ha1 & Hm1).
    destruct (lostConnection env s) as [s1 e1]. cbn [fst snd] in *.
    destruct (lostConnections_given_up envs s1 Hc1 Ht1 ltac:(lia))
      as [Hs2 Ho2].
    destruct (lostConnections envs s1) as [s2 e2]. cbn [fst snd] in *.
    subst s2. rewrite opened_app, Ho, Ho2, Ha1, Hc1, Ht1.
    split_and!; [lia|lia|done|]. split; [lia|done].
Qed.
End socket_extras.

Lemma reconnects_are_bounded_witness :
  let env := {| https := true; host := "openfront.io"; closeThrows := false;
                constructorThrows := false; newSocket := 1; newTimer := 1 |} in
  let s := (start_resume "/w0" env
              (start_begin (new_PublicLobbySocket None None))).1 in
  Forall calm [env; env; env; env; env]
  ∧ wsAttemptCounted s = false ∧ wsReconnectTimeout s = None
  ∧ wsConnectionAttempts s < maxWsAttempts s
  ∧ opened (lostConnections [env; env; env; env; env] s).2 = 2%nat.
Proof.
  intros env s.
  assert (Hcalm : Forall calm [env; env; env; env; env]).
  { repeat constructor. }
  assert (Hlt : wsConnectionAttempts s < maxWsAttempts s) by reflexivity.
  split_and!; [exact Hcalm|reflexivity|reflexivity|exact Hlt|].
  exact (proj1 (reconnects_are_bounded [env; env; env; env; env] s Hcalm
                  eq_refl eq_refl Hlt)).
Defined.

Lemma removeWorker_forgets_only_that_worker_witness :
  let s := @state_after spec_schemas two_workers history_reported in
  1 ≠ 0
  ∧ JSMap.get 0 (workers (removeWorker 0 s)) = None
  ∧ JSMap.get 1 (workers (removeWorker 0 s)) = Some worker_b.
Proof.
  intros s. assert (Hne : 1 ≠ 0) by discriminate.
  destruct (removeWorker_forgets_only_that_worker 0 s)
    as (Hgone & _ & _ & Hothers & _).
  destruct (Hothers 1 Hne) as (Hkept & _).
  split_and!; [exact Hne|exact Hgone|]. rewrite Hkept. reflexivity.
Defined.
